(** * metalsmith-link-checker: a shallow embedding of [lib/index.js]

    The development follows the plugin source function by function:
    [flipObjectOfArrays], [validUrl], [validLocal], [protocolValidators] and
    the plugin entry point with its two callbacks (the [mapValuesLimit]
    iteratee and the completion callback that builds and renders the report).

    Conventions of the embedding.
    - A JavaScript string is a [string]; [Array.prototype.sort] without a
      comparator orders strings by code unit, which is [String.compare].
    - A plain object used as a dictionary is the list of its own enumerable
      properties ([obj V]), a new key going last; reading a property that is
      not an own property falls through to [Object.prototype], whose property
      names are listed in [objectPrototype]. The engine enumerates keys that
      are array indices before the others; the statements below are about
      lookups, membership, counts and sorted output, and where they speak of
      the order of documents they mean the order in which [Object.keys]
      yields them.
    - The object [normalizedFilenames], whose values are all [true], is a
      [gmap string bool].
    - An exception that leaves a function is the result [None].
    - The validations that [async.mapValuesLimit] runs concurrently are taken
      one after the other; each reads and writes only its own entry, so a
      sequential run stands for every schedule. The events of a run record
      the calls of the two validators.
    - The libraries the plugin calls but does not contain are parameters of a
      section: the network ([request]), the WHATWG URL parser ([urlScheme]),
      the regular expression engine ([RegExp]), [minimatch] and [cheerio].
      Node's [path.dirname] and [path.join] are modelled concretely, in their
      POSIX flavour, in module [Path]. *)

From Stdlib Require Import Ascii.
From stdpp Require Import gmap strings list pretty sorting.
From Equations Require Import Equations.

Open Scope string_scope.
Open Scope list_scope.
Open Scope nat_scope.

(** ** Strings *)

Definition newline : string := String (Ascii.ascii_of_nat 10) "".

(** [arr.join(sep)] on an array of strings. *)
Fixpoint join (sep : string) (l : list string) : string :=
  match l with
  | [] => ""
  | [x] => x
  | x :: rest => x +:+ sep +:+ join sep rest
  end.

(** [s.replace(/[/\\]/g, '/')]: every backslash becomes a forward slash. *)
Fixpoint normalizeSeparators (s : string) : string :=
  match s with
  | "" => ""
  | String c rest =>
      String (if Ascii.eqb c "\"%char then "/"%char else c)
             (normalizeSeparators rest)
  end.

(** ** Plain objects *)

(** Own enumerable properties, in enumeration order. *)
Abbreviation obj V := (list (string * V)).

Definition obj_keys {V} (o : obj V) : list string := o.*1.

Fixpoint obj_get {V} (o : obj V) (k : string) : option V :=
  match o with
  | [] => None
  | (k', v) :: rest => if String.eqb k' k then Some v else obj_get rest k
  end.

(** Defining or overwriting an own property: an existing key keeps its
    place, a new key goes last. *)
Fixpoint obj_set {V} (o : obj V) (k : string) (v : V) : obj V :=
  match o with
  | [] => [(k, v)]
  | (k', v') :: rest =>
      if String.eqb k' k then (k', v) :: rest else (k', v') :: obj_set rest k v
  end.

(** [delete o[k]]. *)
Definition obj_delete {V} (o : obj V) (k : string) : obj V :=
  filter (λ kv, kv.1 ≠ k) o.

(** The property names every plain object inherits from [Object.prototype]. *)
Definition objectPrototype : list string :=
  [ "constructor"; "__defineGetter__"; "__defineSetter__"; "hasOwnProperty";
    "__lookupGetter__"; "__lookupSetter__"; "isPrototypeOf";
    "propertyIsEnumerable"; "toString"; "valueOf"; "__proto__";
    "toLocaleString" ].

Definition inherited (k : string) : bool :=
  existsb (String.eqb k) objectPrototype.

(** What [o[k]] reads on a plain object. *)
Inductive property (V : Type) : Type :=
| Own (v : V)
| Inherited
| Undefined.
Arguments Own {V} v.
Arguments Inherited {V}.
Arguments Undefined {V}.

Definition js_get {V} (o : obj V) (k : string) : property V :=
  match obj_get o k with
  | Some v => Own v
  | None => if inherited k then Inherited else Undefined
  end.

(** [o[k] = v] on a plain object: the name [__proto__] is an inherited
    setter and creates no own property. *)
Definition js_assign {V} (o : obj V) (k : string) (v : V) : obj V :=
  if String.eqb k "__proto__" then o else obj_set o k v.

(** [k in files] for the dictionary of normalized file names: own keys and
    inherited names alike. *)
Definition js_in (k : string) (files : gmap string bool) : bool :=
  bool_decide (is_Some (files !! k)) || inherited k.

(** ** Node's [path] module (POSIX flavour) *)

Module Path.

Definition isSlash (c : ascii) : bool := Ascii.eqb c "/"%char.

(** The segments between forward slashes; ["a//b"] has an empty middle one. *)
Fixpoint segments (s : string) : list string :=
  match s with
  | "" => [""]
  | String c rest =>
      if isSlash c then "" :: segments rest
      else match segments rest with
           | seg :: more => String c seg :: more
           | [] => [String c ""]
           end
  end.

(** One step of [normalizeString]; [res] holds the kept segments, last
    one first. *)
Definition normalizeStep (allowAboveRoot : bool)
    (res : list string) (seg : string) : list string :=
  if String.eqb seg "" || String.eqb seg "." then res
  else if String.eqb seg ".." then
    match res with
    | top :: below =>
        if String.eqb top ".."
        then (if allowAboveRoot then ".." :: res else res)
        else below
    | [] => if allowAboveRoot then [".."] else []
    end
  else seg :: res.

Definition normalizeString (path : string) (allowAboveRoot : bool) : string :=
  join "/" (rev (fold_left (normalizeStep allowAboveRoot) (segments path) [])).

Definition startsWithSlash (s : string) : bool :=
  match s with
  | String c _ => isSlash c
  | "" => false
  end.

Fixpoint endsWithSlash (s : string) : bool :=
  match s with
  | "" => false
  | String c "" => isSlash c
  | String _ rest => endsWithSlash rest
  end.

Definition normalize (path : string) : string :=
  if String.eqb path "" then "."
  else
    let isAbsolute := startsWithSlash path in
    let trailingSeparator := endsWithSlash path in
    let p := normalizeString path (negb isAbsolute) in
    if String.eqb p "" then
      (if isAbsolute then "/" else if trailingSeparator then "./" else ".")
    else
      let p := if trailingSeparator then p +:+ "/" else p in
      if isAbsolute then "/" +:+ p else p.

(** [path.join(a, b)]: empty arguments are skipped. *)
Definition join (a b : string) : string :=
  match String.eqb a "", String.eqb b "" with
  | true, true => "."
  | true, false => normalize b
  | false, true => normalize a
  | false, false => normalize (a +:+ "/" +:+ b)
  end.

(** The backwards scan of [dirname]: [chars] are the characters at the
    indices [i], [i-1], ..., and index 0 is never inspected. *)
Fixpoint dirnameScan (chars : list ascii) (i : nat) (matchedSlash : bool)
    : option nat :=
  match chars, i with
  | c :: before, S i' =>
      if isSlash c then
        (if matchedSlash then dirnameScan before i' matchedSlash else Some i)
      else dirnameScan before i' false
  | _, _ => None
  end.

Definition dirname (path : string) : string :=
  if String.eqb path "" then "."
  else
    let hasRoot := startsWithSlash path in
    let chars := String.list_ascii_of_string path in
    match dirnameScan (rev chars) (length chars - 1) true with
    | None => if hasRoot then "/" else "."
    | Some e =>
        if hasRoot && Nat.eqb e 1 then "//"
        else String.string_of_list_ascii (take e chars)
    end.

End Path.

(** ** [validLocal] *)

Definition isSeparator (c : ascii) : bool :=
  Ascii.eqb c "/"%char || Ascii.eqb c "\"%char.

Fixpoint noSeparator (s : string) : bool :=
  match s with
  | "" => true
  | String c rest => negb (isSeparator c) && noSeparator rest
  end.

(** [dest.replace(/#[^/\\]*$/, '')]: the leftmost [#] after which no slash
    or backslash occurs starts the match, which runs to the end. *)
Fixpoint stripAnchor (dest : string) : string :=
  match dest with
  | "" => ""
  | String c rest =>
      if Ascii.eqb c "#"%char && noSeparator rest then ""
      else String c (stripAnchor rest)
  end.

Definition isSelf (p : string) : bool :=
  String.eqb p "" || String.eqb p "." || String.eqb p "./".

Definition linkPathOf (src dest : string) : string :=
  Path.join (Path.dirname src) (stripAnchor dest).

Definition validLocal (files : gmap string bool) (src dest : string) : bool :=
  let dest := stripAnchor dest in
  if isSelf dest then true
  else
    let linkPath := Path.join (Path.dirname src) dest in
    if isSelf linkPath then true
    else js_in linkPath files || js_in (Path.join linkPath "index.html") files.

(** ** [flipObjectOfArrays] *)

(** [if (output[val] === undefined) output[val] = []; output[val].push(key)].
    When [val] names an inherited property, [output[val]] is not [undefined]
    and has no [push]: the call throws a [TypeError], rendered as [None]. *)
Definition flipPush (output : obj (list string)) (val key : string)
    : option (obj (list string)) :=
  match js_get output val with
  | Own keys => Some (obj_set output val (keys ++ [key]))
  | Undefined => Some (js_assign output val [key])
  | Inherited => None
  end.

Fixpoint flipValues (output : obj (list string)) (key : string)
    (vals : list string) : option (obj (list string)) :=
  match vals with
  | [] => Some output
  | val :: rest =>
      match flipPush output val key with
      | Some output' => flipValues output' key rest
      | None => None
      end
  end.

Fixpoint flipEntries (output : obj (list string))
    (input : obj (list string)) : option (obj (list string)) :=
  match input with
  | [] => Some output
  | (key, vals) :: rest =>
      match flipValues output key vals with
      | Some output' => flipEntries output' rest
      | None => None
      end
  end.

Definition flipObjectOfArrays (input : obj (list string))
    : option (obj (list string)) :=
  flipEntries [] input.

(** ** Validation outcomes and the events of a run *)

(** The second argument of a validator callback: [null] or a string. *)
Definition outcome : Type := option string.

(** Truthiness of [result[link]]: [undefined], [null] and the empty string
    are falsy. *)
Definition truthy (o : option outcome) : bool :=
  match o with
  | Some (Some reason) => negb (String.eqb reason "")
  | _ => false
  end.

Definition reasonOf (o : option outcome) : string :=
  match o with
  | Some (Some reason) => reason
  | _ => ""
  end.

Inductive method : Type := HEAD | GET.

Definition method_eqb (a b : method) : bool :=
  match a, b with
  | HEAD, HEAD | GET, GET => true
  | _, _ => false
  end.

(** What a request leads to: the response callback runs with a status code,
    or the ['error'] handler runs with the error's message. *)
Inductive response : Type :=
| Response (statusCode : Z)
| Failure (message : string).

(** Calls of the two validators, in the order they are made. *)
Inductive event : Type :=
| Request (https : bool) (m : method) (link : string)
| Local (src dest : string).

(** A computation together with the validator calls it made. *)
Definition traced (A : Type) : Type := A * list event.

#[global] Instance traced_ret : MRet traced := λ A a, (a, []).

#[global] Instance traced_bind : MBind traced := λ A B k c,
  let '(a, t1) := c in
  let '(b, t2) := k a in
  (b, t1 ++ t2).

Definition emit (e : event) : traced unit := (tt, [e]).

(** Options of the plugin after merging over the defaults. [timeout],
    [userAgent] and [parallelism] only parameterise the requests and their
    scheduling, which the [request] oracle below stands for. *)
Inductive attributes : Type :=
| OneAttribute (a : string)
| ManyAttributes (l : list string).

Record options : Type := {
  html_pattern : string;
  html_tags : obj attributes;
  ignore : list string
}.

Definition defaultOptions : options := {|
  html_pattern := "**/*.html";
  html_tags := [ ("a", OneAttribute "href");
                 ("img", ManyAttributes ["src"; "data-src"]);
                 ("link", OneAttribute "href");
                 ("script", OneAttribute "src") ];
  ignore := []
|}.

Definition retries (m : method) : nat :=
  match m with HEAD => 1 | GET => 0 end.

(** ** [Array.prototype.sort] on strings *)

(** The default comparison orders strings by code unit, as [String.le]
    does; a merge sort stands for the engine's algorithm, and
    [sort_unique] below shows that the choice does not matter. *)
Definition sort : list string → list string := merge_sort String.le.

Section Plugin.

(** [http(s).request(link, {method, ...})]: the library is chosen by
    [https], and the answer is what the callbacks observe, the response
    callback or the ['error'] handler. The library is taken to accept the
    link; an exception thrown by the call itself is outside the model. *)
Variable request : bool → method → string → response.

(** [new URL(link)]: [None] when the constructor throws, otherwise the
    scheme, so that [linkUrl.protocol] is the scheme followed by a colon. *)
Variable urlScheme : string → option string.

(** [new RegExp(pattern)]: [None] when the pattern is malformed, otherwise
    the [test] method of the expression. *)
Variable RegExp : string → option (string → bool).

(** [minimatch.filter(pattern)] applied to a file name. *)
Variable minimatch : string → string → bool.

(** [$(`${tag}[${attribute}][${attribute}!='']`)] mapped to the values of
    [attribute], on the parsed contents of a file. *)
Variable cheerio : string → string → string → list string.

(** *** [htmlLinks] *)

Definition attributeList (a : attributes) : list string :=
  match a with
  | OneAttribute a => [a]
  | ManyAttributes l => l
  end.

Definition fileLinks (o : options) (contents : string) : list string :=
  concat (map (λ '(tag, attrs),
                concat (map (cheerio contents tag) (attributeList attrs)))
              (html_tags o)).

Definition htmlLinks (files : obj string) (o : options) : obj (list string) :=
  fold_left
    (λ acc '(filename, contents),
       js_assign acc (normalizeSeparators filename) (fileLinks o contents))
    (filter (λ kv, minimatch (html_pattern o) kv.1 = true) files)
    [].

(** *** [validUrl] *)

Definition isHttps (link : string) : bool :=
  String.eqb (String.substring 0 5 link) "https".

Definition classify (statusCode : Z) : outcome :=
  if (400 <=? statusCode)%Z && (statusCode <=? 599)%Z
  then Some ("HTTP " +:+ pretty statusCode)
  else None.

Equations validUrl (link : string) (m : method) : traced outcome
  by wf (retries m) lt :=
  validUrl link m with request (isHttps link) m link => {
    | Failure message =>
        emit (Request (isHttps link) m link);; mret (Some message)
    | Response statusCode with m => {
        | HEAD =>
            emit (Request (isHttps link) HEAD link);;
            if (statusCode =? 405)%Z then validUrl link GET
            else mret (classify statusCode)
        | GET =>
            emit (Request (isHttps link) GET link);;
            mret (classify statusCode) } }.

(** *** [protocolValidators] and the [mapValuesLimit] iteratee *)

Definition protocolValidators : obj (string → traced outcome) :=
  [ ("http:", λ link, validUrl link HEAD);
    ("https:", λ link, validUrl link HEAD) ].

(** [filenames.filter((filename) => !validLocal(normalizedFilenames,
    filename, link))], one call of [validLocal] per element. *)
Fixpoint badFilenames (normalizedFilenames : gmap string bool)
    (filenames : list string) (link : string) : traced (list string) :=
  match filenames with
  | [] => mret []
  | filename :: rest =>
      emit (Local filename link);;
      bad ← badFilenames normalizedFilenames rest link;
      mret (if validLocal normalizedFilenames filename link
            then bad else filename :: bad)
  end.

(** The value the iteratee hands to its callback. A protocol is a scheme
    followed by a colon and so never names an inherited property
    ([inherited_protocol] below); that branch is unreachable. *)
Definition iteratee (normalizedFilenames : gmap string bool)
    (filenames : list string) (link : string) : traced outcome :=
  match urlScheme link with
  | Some scheme =>
      match js_get protocolValidators (scheme +:+ ":") with
      | Own validator => validator link
      | Undefined => mret None
      | Inherited => mret None
      end
  | None =>
      bad ← badFilenames normalizedFilenames filenames link;
      mret (if Nat.eqb (length bad) 0 then None else Some "not found")
  end.

(** [async.mapValuesLimit]: the iteratee runs once for every own key, and
    its value is stored under that key of a fresh object. The entries are
    taken in the order of the list, which stands for one schedule of the
    concurrent validations. *)
Fixpoint mapValues (normalizedFilenames : gmap string bool)
    (linksToFilenames : obj (list string)) : traced (obj outcome) :=
  match linksToFilenames with
  | [] => mret []
  | (link, filenames) :: rest =>
      value ← iteratee normalizedFilenames filenames link;
      result ← mapValues normalizedFilenames rest;
      mret ((link, value) :: result)
  end.

(** *** The completion callback *)

(** [links.filter((link) => result[link]).map((link) => `${link}
    (${result[link]})`)]. The links of [filenamesToLinks] went through
    [flipObjectOfArrays] without a throw, so none of them names an inherited
    property and [result[link]] is an own property or [undefined]. *)
Definition linkErrors (result : obj outcome) (links : list string)
    : list string :=
  (λ link, link +:+ " (" +:+ reasonOf (obj_get result link) +:+ ")")
    <$> filter (λ link, truthy (obj_get result link) = true) links.

Definition filenamesToLinkErrors (filenamesToLinks : obj (list string))
    (result : obj outcome) : obj (list string) :=
  fold_left
    (λ acc '(filename, links),
       let errors := linkErrors result links in
       if Nat.eqb (length errors) 0 then acc
       else js_assign acc filename errors)
    filenamesToLinks [].

(** [`${filename}:\n${output}`] with the sorted, indented lines of one
    document. *)
Definition block (errors : obj (list string)) (filename : string) : string :=
  let output :=
    join newline
      ((λ link, "  " +:+ link)
         <$> sort (default [] (obj_get errors filename))) in
  filename +:+ ":" +:+ newline +:+ output.

Definition message (errors : obj (list string)) : string :=
  join (newline +:+ newline) (block errors <$> sort (obj_keys errors)).

Definition report (errors : obj (list string)) : string :=
  "Broken links found:" +:+ newline +:+ newline +:+ message errors.

(** The calls of [done] made by the completion callback, in order:
    [Some m] is [done(m)], [None] is [done()]. The iteratee never passes an
    error to its callback, so the [err] branch is not taken. *)
Definition complete (filenamesToLinks : obj (list string))
    (result : obj outcome) : list (option string) :=
  let errors := filenamesToLinkErrors filenamesToLinks result in
  (if Nat.eqb (length (obj_keys errors)) 0 then []
   else [Some (report errors)])
  ++ [None].

(** *** The plugin *)

Definition normalizedFilenames (files : obj string) : gmap string bool :=
  fold_left
    (λ reducer '(filename, _),
       let name := normalizeSeparators filename in
       if String.eqb name "__proto__" then reducer
       else <[name := true]> reducer)
    files ∅.

Definition ignored (res : list (string → bool)) (link : string) : bool :=
  existsb (λ re, re link) res.

Definition removeIgnored (res : list (string → bool))
    (linksToFilenames : obj (list string)) : obj (list string) :=
  fold_left (λ o link, obj_delete o link)
            (filter (λ link, ignored res link = true)
                    (obj_keys linksToFilenames))
            linksToFilenames.

(** One build: [None] when an exception leaves the plugin (the [TypeError]
    of [flipObjectOfArrays], the [SyntaxError] of [new RegExp]); otherwise
    the calls of [done] and the validator calls made on the way. *)
Definition plugin (o : options) (files : obj string)
    : option (traced (list (option string))) :=
  let names := normalizedFilenames files in
  let filenamesToLinks := htmlLinks files o in
  linksToFilenames ← flipObjectOfArrays filenamesToLinks;
  res ← mapM RegExp (ignore o);
  let linksToFilenames := removeIgnored res linksToFilenames in
  Some (result ← mapValues names linksToFilenames;
        mret (complete filenamesToLinks result)).

End Plugin.

(** ** The earlier form of the plugin, on [sync-request]

    The first part of [lib/index.js] is the plugin as it was before the
    ignore list and the reasons were added: [validUrl] is synchronous and
    returns a verdict, [validLocal] searches the array of normalized keys, the
    iteratee hands on the documents for which the link is broken, and the
    completion callback flips that mapping back. [flipObjectOfArrays],
    [htmlLinks] and the rendering of the message are the same text as above
    and are reused. *)

Module SyncRequest.

Definition inErrorBand (statusCode : Z) : bool :=
  (400 <=? statusCode)%Z && (statusCode <=? 599)%Z.

Section Plugin.

(** [request(method, link, {...})] of [sync-request]: a response, or an
    exception ([Failure]), which [validUrl] catches. *)
Variable request : method → string → response.

(** [url.parse(link).protocol]: [None] for [null], otherwise the scheme, the
    protocol being the scheme followed by a colon. *)
Variable urlScheme : string → option string.

Variable minimatch : string → string → bool.
Variable cheerio : string → string → string → list string.

(** The verdict ([res && !(...)], read as a boolean) and the requests made. *)
Equations validUrl (link : string) (m : method) : bool * list (method * string)
  by wf (retries m) lt :=
  validUrl link HEAD with request HEAD link => {
    | Failure _ =>
        let '(valid, requests) := validUrl link GET in
        (valid, (HEAD, link) :: requests)
    | Response statusCode =>
        if (statusCode =? 405)%Z then
          let '(valid, requests) := validUrl link GET in
          (valid, (HEAD, link) :: requests)
        else (negb (inErrorBand statusCode), [(HEAD, link)]) };
  validUrl link GET with request GET link => {
    | Failure _ => (false, [(GET, link)])
    | Response statusCode => (negb (inErrorBand statusCode), [(GET, link)]) }.

(** [files] stands for [Object.keys(files)]. *)
Definition validLocal (files : list string) (src dest : string) : bool :=
  let dest := stripAnchor dest in
  if isSelf dest then true
  else
    let linkPath := Path.join (Path.dirname src) dest in
    if isSelf linkPath then true
    else
      let normalizedFilenames := normalizeSeparators <$> files in
      bool_decide (linkPath ∈ normalizedFilenames)
      || bool_decide (linkPath +:+ "/index.html" ∈ normalizedFilenames).

Definition protocolValidators
    : obj (string → bool * list (method * string)) :=
  [ ("http:", λ link, validUrl link HEAD);
    ("https:", λ link, validUrl link HEAD) ].

(** The documents the iteratee hands to its callback, and the requests. *)
Definition iteratee (files : list string) (filenames : list string)
    (link : string) : list string * list (method * string) :=
  match urlScheme link with
  | Some scheme =>
      match js_get protocolValidators (scheme +:+ ":") with
      | Own validator =>
          let '(valid, requests) := validator link in
          (if valid then [] else filenames, requests)
      | Undefined => ([], [])
      | Inherited => ([], [])
      end
  | None =>
      (filter (λ filename, validLocal files filename link = false) filenames,
       [])
  end.

Fixpoint mapValues (files : list string) (linksToFilenames : obj (list string))
    : obj (list string) * list (method * string) :=
  match linksToFilenames with
  | [] => ([], [])
  | (link, filenames) :: rest =>
      let '(value, requests) := iteratee files filenames link in
      let '(result, requests') := mapValues files rest in
      ((link, value) :: result, requests ++ requests')
  end.

(** The completion callback: [None] when flipping the result throws,
    otherwise the calls of [done]. *)
Definition complete (result : obj (list string))
    : option (list (option string)) :=
  result ← flipObjectOfArrays result;
  Some ((if Nat.eqb (length (obj_keys result)) 0 then []
         else [Some (report result)])
        ++ [None]).

Definition plugin (o : options) (files : obj string)
    : option (list (option string) * list (method * string)) :=
  let filenamesToLinks := htmlLinks minimatch cheerio files o in
  linksToFilenames ← flipObjectOfArrays filenamesToLinks;
  let '(result, requests) := mapValues (obj_keys files) linksToFilenames in
  dones ← complete result;
  Some (dones, requests).

(** Whether [link], cited by [doc], is broken for [doc]. *)
Definition brokenFor (files : list string) (doc link : string) : Prop :=
  match urlScheme link with
  | Some scheme =>
      (scheme = "http" ∨ scheme = "https") ∧ (validUrl link HEAD).1 = false
  | None => validLocal files doc link = false
  end.

End Plugin.

End SyncRequest.

(** ** Vocabulary of the statements *)

(** The documents citing [val], in enumeration order, once per citation. *)
Definition citations (input : obj (list string)) (val : string) : list string :=
  concat (map (λ '(key, vals), (λ _, key) <$> filter (λ v, v = val) vals) input).

Definition lookupList (o : obj (list string)) (k : string) : list string :=
  default [] (obj_get o k).

(** No value of the mapping names a property inherited from
    [Object.prototype]. *)
Definition ownValues (input : obj (list string)) : bool :=
  forallb (λ kv, forallb (λ val, negb (inherited val)) kv.2) input.

(** No own property of the accumulator shadows an inherited name. *)
Definition ownOnly (output : obj (list string)) : Prop :=
  ∀ k, inherited k = true → obj_get output k = None.

(** Distinct keys, none of them [__proto__]. *)
Definition wellFormed {V} (o : obj V) : Prop :=
  NoDup (obj_keys o) ∧ "__proto__" ∉ obj_keys o.

#[global] Instance response_eq_dec : EqDecision response.
Proof. solve_decision. Defined.

(** What the callbacks of a request pass on when no retry follows. *)
Definition answer (r : response) : outcome :=
  match r with
  | Response statusCode => classify statusCode
  | Failure message => Some message
  end.

(** Whether the last character is a colon, as in every protocol. *)
Fixpoint endsWithColon (s : string) : bool :=
  match s with
  | "" => false
  | String c "" => Ascii.eqb c ":"
  | String _ rest => endsWithColon rest
  end.

(** Counting the calls of the validators in the events of a run. *)
Definition isRequestFor (m : method) (link : string) (e : event) : bool :=
  match e with
  | Request _ m' link' => method_eqb m m' && String.eqb link' link
  | Local _ _ => false
  end.

Definition isLocalFor (link : string) (e : event) : bool :=
  match e with
  | Request _ _ _ => false
  | Local _ dest => String.eqb dest link
  end.

Fixpoint countCalls (p : event → bool) (t : list event) : nat :=
  match t with
  | [] => 0
  | e :: rest => (if p e then 1 else 0) + countCalls p rest
  end.

(** The links whose scheme sends them to the remote validator, and the
    links without a scheme. *)
Definition remote (urlScheme : string → option string) (link : string)
    : bool :=
  match urlScheme link with
  | Some scheme => bool_decide (scheme = "http" ∨ scheme = "https")
  | None => false
  end.

Definition schemeless (urlScheme : string → option string) (link : string)
    : bool :=
  match urlScheme link with
  | Some _ => false
  | None => true
  end.

(** Whether a backslash occurs in a string. *)
Fixpoint hasBackslash (s : string) : bool :=
  match s with
  | "" => false
  | String c rest => Ascii.eqb c "\"%char || hasBackslash rest
  end.

(** The contents of the files that match the pattern and whose normalized
    name is [doc], in enumeration order. *)
Definition filesNamed (minimatch : string → string → bool) (o : options)
    (files : obj string) (doc : string) : list string :=
  (filter (λ kv, normalizeSeparators kv.1 = doc
                 ∧ minimatch (html_pattern o) kv.1 = true) files).*2.

(** Whether an answer of [sync-request] makes the link valid, and whether
    the earlier [validUrl] follows a [HEAD] request with a [GET] request. *)
Definition accepts (r : response) : bool :=
  match r with
  | Response statusCode => negb (SyncRequest.inErrorBand statusCode)
  | Failure _ => false
  end.

Definition retried (r : response) : bool :=
  match r with
  | Response statusCode => (statusCode =? 405)%Z
  | Failure _ => true
  end.

(** Unfolding the bookkeeping of validator calls. *)
Ltac run_traced :=
  unfold mbind, mret, traced_bind, traced_ret, emit; cbn [fst snd app].

(** ** A small site to run the plugin on *)

Module Demo.

(** The contents of a file are its links separated by spaces; the only
    tag read is [a]. *)
Definition cheerio (contents tag attribute : string) : list string :=
  if String.eqb tag "a" && String.eqb attribute "href"
  then filter (λ l, l ≠ "") (String.words contents)
  else [].

Definition minimatch (pattern filename : string) : bool := true.

Definition urlScheme (link : string) : option string :=
  if String.eqb (String.substring 0 7 link) "http://" then Some "http"
  else if String.eqb (String.substring 0 8 link) "https://" then Some "https"
  else if String.eqb (String.substring 0 7 link) "mailto:" then Some "mailto"
  else None.

Definition RegExp (pattern : string) : option (string → bool) :=
  Some (String.eqb pattern).

Definition request (https : bool) (m : method) (link : string) : response :=
  match m with
  | HEAD => Response 405
  | GET => if https then Response 200 else Response 404
  end.

Definition run := plugin request urlScheme RegExp minimatch cheerio.

(** A network on which every request ends in an ['error'] event whose
    error carries an empty message. *)
Definition silentFailure (https : bool) (m : method) (link : string)
    : response :=
  Failure "".

Definition runOffline := plugin silentFailure urlScheme RegExp minimatch cheerio.

End Demo.

(** * Properties *)

(** ** Own properties *)

Section ObjFacts.
Context {V : Type}.
Implicit Types (o : obj V) (k : string) (v : V).

Lemma obj_get_set o k v k' :
  obj_get (obj_set o k v) k' = if decide (k = k') then Some v else obj_get o k'.
Proof.
  induction o as [|[k0 v0] o IH]; simpl.
  - destruct (String.eqb_spec k k'); case_decide; congruence.
  - destruct (String.eqb_spec k0 k) as [->|Hk]; simpl.
    + destruct (String.eqb_spec k k'); case_decide; congruence.
    + destruct (String.eqb_spec k0 k'); [case_decide; congruence | exact IH].
Qed.

Lemma obj_get_None o k : obj_get o k = None ↔ k ∉ obj_keys o.
Proof.
  unfold obj_keys. induction o as [|[k0 v0] o IH]; simpl.
  - split; [intros _; apply not_elem_of_nil | done].
  - rewrite not_elem_of_cons, <- IH.
    destruct (String.eqb_spec k0 k) as [->|Hne]; split.
    + discriminate.
    + intros [[] _]. reflexivity.
    + intros ->. split; [congruence | reflexivity].
    + intros [_ H]. exact H.
Qed.

Lemma obj_get_elem_of o k v : obj_get o k = Some v → (k, v) ∈ o.
Proof.
  induction o as [|[k0 v0] o IH]; simpl; [done|].
  destruct (String.eqb_spec k0 k) as [->|]; intros H.
  - injection H as ->. left.
  - right. auto.
Qed.

Lemma obj_get_NoDup o k v :
  NoDup (obj_keys o) → (k, v) ∈ o → obj_get o k = Some v.
Proof.
  unfold obj_keys. induction o as [|[k0 v0] o IH]; simpl.
  - intros _ H. by apply elem_of_nil in H.
  - rewrite NoDup_cons. intros [Hk0 Hnd] [H|H]%elem_of_cons.
    + injection H as -> ->. by rewrite String.eqb_refl.
    + destruct (String.eqb_spec k0 k) as [->|]; [|auto].
      destruct Hk0. apply list_elem_of_fmap. by exists (k, v).
Qed.

Lemma obj_keys_set o k v :
  obj_keys (obj_set o k v)
  = if decide (k ∈ obj_keys o) then obj_keys o else obj_keys o ++ [k].
Proof.
  unfold obj_keys. induction o as [|[k0 v0] o IH].
  - reflexivity.
  - cbn [obj_set].
    destruct (String.eqb_spec k0 k) as [->|Hk]; rewrite !fmap_cons; cbn [fst].
    + rewrite decide_True; [done | left].
    + rewrite IH.
      destruct (decide (k ∈ o.*1)) as [Hin|Hin].
      * rewrite decide_True; [done | by right].
      * rewrite decide_False; [done|].
        intros [->|]%elem_of_cons; done.
Qed.

Lemma obj_set_NoDup o k v :
  NoDup (obj_keys o) → NoDup (obj_keys (obj_set o k v)).
Proof.
  intros H. rewrite obj_keys_set. case_decide; [done|].
  apply NoDup_app. split_and!; [done | | apply NoDup_singleton].
  intros x Hx ->%list_elem_of_singleton. done.
Qed.

Lemma obj_get_is_Some o k : is_Some (obj_get o k) ↔ k ∈ obj_keys o.
Proof.
  rewrite <- not_eq_None_Some, obj_get_None.
  split; [apply dec_stable | auto].
Qed.


End ObjFacts.

(** ** The flip step *)

Lemma flipPush_spec output val key :
  inherited val = false →
  ∃ output',
    flipPush output val key = Some output' ∧
    (∀ v, obj_get output' v
          = if decide (val = v) then Some (lookupList output val ++ [key])
            else obj_get output v) ∧
    (NoDup (obj_keys output) → NoDup (obj_keys output')).
Proof.
  intros Hval. unfold flipPush, js_get, lookupList, js_assign.
  destruct (obj_get output val) as [keys|] eqn:Hget; simpl.
  - eexists. split; [reflexivity|]. split.
    + intros v. apply obj_get_set.
    + apply obj_set_NoDup.
  - rewrite Hval.
    destruct (String.eqb_spec val "__proto__") as [->|_]; [discriminate|].
    eexists. split; [reflexivity|]. split.
    + intros v. apply obj_get_set.
    + apply obj_set_NoDup.
Qed.

Lemma flipValues_spec vals : ∀ output key,
  (∀ val, val ∈ vals → inherited val = false) →
  ∃ output',
    flipValues output key vals = Some output' ∧
    (∀ v, lookupList output' v
          = lookupList output v ++ ((λ _, key) <$> filter (λ x, x = v) vals)) ∧
    (∀ v, is_Some (obj_get output' v) ↔ is_Some (obj_get output v) ∨ v ∈ vals) ∧
    (NoDup (obj_keys output) → NoDup (obj_keys output')).
Proof.
  induction vals as [|val vals IH]; intros output key Hvals.
  - exists output. split_and!; [done | | | done].
    + intros v. by rewrite app_nil_r.
    + intros v. rewrite elem_of_nil. tauto.
  - cbn [flipValues].
    destruct (flipPush_spec output val key) as (o1 & -> & Hget & Hnd);
      [apply Hvals; left|].
    destruct (IH o1 key) as (o2 & -> & Hl & Hs & Hnd2);
      [intros; apply Hvals; by right|].
    exists o2. split_and!; [done | | | auto].
    + intros v. rewrite Hl. unfold lookupList at 1. rewrite Hget.
      rewrite filter_cons. destruct (decide (val = v)) as [->|Hne]; simpl.
      * by rewrite <- app_assoc.
      * done.
    + intros v. rewrite Hs, Hget, elem_of_cons.
      destruct (decide (val = v)) as [->|Hne].
      * split; [intros _; right; by left | intros _; left; eauto].
      * split; [intros [|]; auto | intros [|[|]]; auto; congruence].
Qed.

Lemma flipEntries_spec input : ∀ output,
  (∀ key vals val, (key, vals) ∈ input → val ∈ vals → inherited val = false) →
  ∃ output',
    flipEntries output input = Some output' ∧
    (∀ v, lookupList output' v = lookupList output v ++ citations input v) ∧
    (∀ v, is_Some (obj_get output' v)
          ↔ is_Some (obj_get output v)
            ∨ ∃ key vals, (key, vals) ∈ input ∧ v ∈ vals) ∧
    (NoDup (obj_keys output) → NoDup (obj_keys output')).
Proof.
  induction input as [|[key vals] input IH]; intros output Hin.
  - exists output. split_and!; [done | | | done].
    + intros v. unfold citations. simpl. by rewrite app_nil_r.
    + intros v. split; [auto|]. intros [|(k & vs & H & _)]; [done|].
      by apply elem_of_nil in H.
  - cbn [flipEntries].
    destruct (flipValues_spec vals output key) as (o1 & -> & Hl1 & Hs1 & Hnd1).
    { intros val Hval. eapply Hin; [left | done]. }
    destruct (IH o1) as (o2 & -> & Hl2 & Hs2 & Hnd2).
    { intros k vs val H1 H2. eapply Hin; [right; exact H1 | done]. }
    exists o2. split_and!; [done | | | auto].
    + intros v. rewrite Hl2, Hl1. unfold citations. simpl.
      by rewrite <- app_assoc.
    + intros v. rewrite Hs2, Hs1. split.
      * intros [[|]|(k & vs & H1 & H2)]; [by left | |].
        -- right. exists key, vals. split; [left | done].
        -- right. exists k, vs. split; [by right | done].
      * intros [|(k & vs & [Heq|H1]%elem_of_cons & H2)]; [by left; left | |].
        -- injection Heq as -> ->. left. by right.
        -- right. eauto.
Qed.

Lemma citations_nonempty input val :
  (∃ key vals, (key, vals) ∈ input ∧ val ∈ vals) → citations input val ≠ [].
Proof.
  intros (key & vals & Hin & Hval). unfold citations.
  induction input as [|[k vs] input IH]; [by apply elem_of_nil in Hin|].
  simpl. apply elem_of_cons in Hin as [Heq|Hin].
  - injection Heq as <- <-.
    assert (Hf : val ∈ filter (λ v, v = val) vals) by by apply list_elem_of_filter.
    destruct (filter (λ v, v = val) vals); [by apply elem_of_nil in Hf | done].
  - intros [_ H]%app_eq_nil. by apply IH.
Qed.

Lemma ownValues_spec input :
  ownValues input = true →
  ∀ key vals val, (key, vals) ∈ input → val ∈ vals → inherited val = false.
Proof.
  unfold ownValues. rewrite forallb_forall.
  intros H key vals val Hin Hval.
  apply list_elem_of_In in Hin. apply H in Hin. simpl in Hin.
  rewrite forallb_forall in Hin. apply list_elem_of_In in Hval.
  apply Hin in Hval. by apply negb_true_iff.
Qed.

Lemma citations_NoDup input val :
  NoDup (obj_keys input) →
  (∀ key vals, (key, vals) ∈ input → NoDup vals) →
  NoDup (citations input val).
Proof.
  unfold obj_keys, citations.
  induction input as [|[key vals] input IH]; intros Hkeys Hvals; simpl.
  - constructor.
  - rewrite fmap_cons in Hkeys. apply NoDup_cons in Hkeys as [Hkey Hkeys].
    apply NoDup_app. split_and!.
    + assert (Hv : NoDup vals) by (eapply Hvals; left).
      clear -Hv. induction Hv as [|x l Hx _ IHl]; [constructor|].
      rewrite filter_cons. case_decide as Hxv; [|done].
      subst x. rewrite fmap_cons.
      assert (filter (λ v, v = val) l = []) as ->; [|apply NoDup_singleton].
      destruct (filter (λ v, v = val) l) as [|y l'] eqn:Hf; [done|].
      assert (Hy : y ∈ filter (λ v, v = val) l) by (rewrite Hf; left).
      apply list_elem_of_filter in Hy as [-> Hy]. done.
    + intros x Hx Hc. apply list_elem_of_fmap in Hx as (? & -> & _).
      apply list_elem_of_In, in_concat in Hc as (l & Hl2 & Hl1).
      apply list_elem_of_In in Hl1, Hl2.
      apply list_elem_of_fmap in Hl2 as ([k vs] & -> & Hin).
      apply list_elem_of_fmap in Hl1 as (? & Heq & _). subst k.
      apply Hkey. apply list_elem_of_fmap. by exists (key, vs).
    + apply IH; [done|]. intros k vs H. eapply Hvals. right. exact H.
Qed.

(** C6 (as amended): for a mapping none of whose references names an
    inherited property, the flip step returns the inverse mapping: every
    reference that appears in some document is a key, exactly once; the value
    of a key lists the citing documents in the order the documents are
    enumerated, once per citation, so it is not empty and it repeats a
    document that lists the reference more than once; when no document
    repeats a reference, no value repeats a document. *)
Theorem flipObjectOfArrays_inverse (input : obj (list string)) :
  ownValues input = true →
  ∃ output,
    flipObjectOfArrays input = Some output ∧
    NoDup (obj_keys output) ∧
    (∀ val, val ∈ obj_keys output
            ↔ ∃ key vals, (key, vals) ∈ input ∧ val ∈ vals) ∧
    (∀ val, val ∈ obj_keys output →
       obj_get output val = Some (citations input val) ∧
       citations input val ≠ []) ∧
    (NoDup (obj_keys input) →
     (∀ key vals, (key, vals) ∈ input → NoDup vals) →
     ∀ val keys, obj_get output val = Some keys → NoDup keys).
Proof.
  intros Hown. unfold flipObjectOfArrays.
  destruct (flipEntries_spec input []) as (output & Hflip & Hl & Hs & Hnd).
  { by apply ownValues_spec. }
  assert (Hkeys : ∀ val, val ∈ obj_keys output
                         ↔ ∃ key vals, (key, vals) ∈ input ∧ val ∈ vals).
  { intros val. rewrite <- obj_get_is_Some, Hs. split; [|auto].
    intros [[? H]|]; [discriminate | done]. }
  assert (Hget : ∀ val, val ∈ obj_keys output →
                        obj_get output val = Some (citations input val)).
  { intros val [keys Hk]%obj_get_is_Some. rewrite Hk. f_equal.
    specialize (Hl val). unfold lookupList in Hl. rewrite Hk in Hl. done. }
  exists output. split_and!; [done | apply Hnd; constructor | done | |].
  - intros val Hval. split; [auto|].
    apply citations_nonempty. by apply Hkeys.
  - intros Hnd1 Hnd2 val keys Hk.
    assert (Hval : val ∈ obj_keys output) by (apply obj_get_is_Some; eauto).
    rewrite (Hget _ Hval) in Hk. injection Hk as <-.
    by apply citations_NoDup.
Qed.

Lemma flipObjectOfArrays_inverse_witness :
  let input := [ ("a.html", ["x"; "x"; "y"]); ("b.html", ["y"; "x"]) ] in
  ownValues input = true ∧
  ∃ output,
    flipObjectOfArrays input = Some output ∧
    NoDup (obj_keys output) ∧
    (∀ val, val ∈ obj_keys output
            ↔ ∃ key vals, (key, vals) ∈ input ∧ val ∈ vals) ∧
    (∀ val, val ∈ obj_keys output →
       obj_get output val = Some (citations input val) ∧
       citations input val ≠ []) ∧
    (NoDup (obj_keys input) →
     (∀ key vals, (key, vals) ∈ input → NoDup vals) →
     ∀ val keys, obj_get output val = Some keys → NoDup keys).
Proof.
  intros input. split; [reflexivity|].
  apply (flipObjectOfArrays_inverse input). reflexivity.
Defined.

(** C6 (as stated) fails: a document that lists a reference twice is entered
    twice in the value of that reference. *)
Lemma flipObjectOfArrays_repeats_document :
  ¬ (∀ (input output : obj (list string)) val keys,
       flipObjectOfArrays input = Some output →
       obj_get output val = Some keys → NoDup keys).
Proof.
  intros H.
  specialize (H [("a.html", ["x"; "x"])] [("x", ["a.html"; "a.html"])]
                "x" ["a.html"; "a.html"] eq_refl eq_refl).
  apply NoDup_cons in H as [H _]. apply H. left.
Qed.

Lemma flipPush_ownOnly output val key output' :
  ownOnly output → flipPush output val key = Some output' → ownOnly output'.
Proof.
  unfold flipPush, js_get, js_assign. intros Hown.
  destruct (obj_get output val) as [keys|] eqn:Hget.
  - intros [= <-] k Hk. rewrite obj_get_set. case_decide as Heq; [|auto].
    subst k. rewrite (Hown _ Hk) in Hget. discriminate.
  - destruct (inherited val) eqn:Hval; [discriminate|].
    destruct (String.eqb_spec val "__proto__"); intros [= <-]; [done|].
    intros k Hk. rewrite obj_get_set. case_decide; [congruence | auto].
Qed.

Lemma flipValues_ownOnly vals : ∀ output key output',
  ownOnly output → flipValues output key vals = Some output' → ownOnly output'.
Proof.
  induction vals as [|val vals IH]; intros output key output' Hown; cbn.
  - by intros [= <-].
  - destruct (flipPush output val key) eqn:Hpush; [|discriminate].
    eapply IH, flipPush_ownOnly; eauto.
Qed.

Lemma flipValues_throws vals : ∀ output key,
  ownOnly output →
  forallb (λ val, negb (inherited val)) vals = false →
  flipValues output key vals = None.
Proof.
  induction vals as [|val vals IH]; intros output key Hown;
    cbn [forallb flipValues]; [discriminate|].
  destruct (inherited val) eqn:Hval; cbn [negb andb].
  - intros _. unfold flipPush, js_get. by rewrite (Hown _ Hval), Hval.
  - intros Hrest. destruct (flipPush output val key) eqn:Hpush; [|done].
    eapply IH; [eapply flipPush_ownOnly|]; eauto.
Qed.

Lemma flipEntries_throws input : ∀ output,
  ownOnly output → ownValues input = false → flipEntries output input = None.
Proof.
  unfold ownValues.
  induction input as [|[key vals] input IH]; intros output Hown;
    cbn [forallb flipEntries snd]; [discriminate|].
  destruct (forallb (λ val, negb (inherited val)) vals) eqn:Hvals; cbn [andb].
  - intros Hrest. destruct (flipValues output key vals) eqn:Hflip; [|done].
    eapply IH; [eapply flipValues_ownOnly|]; eauto.
  - intros _. by rewrite flipValues_throws.
Qed.

(** X15: the flip step throws exactly when some value of the mapping names
    a property inherited from [Object.prototype]. *)
Lemma flipObjectOfArrays_throws input :
  flipObjectOfArrays input = None ↔ ownValues input = false.
Proof.
  split.
  - intros Hnone. destruct (ownValues input) eqn:Hown; [|done].
    destruct (flipEntries_spec input []) as (? & H & _);
      [by apply ownValues_spec|].
    unfold flipObjectOfArrays in Hnone. congruence.
  - apply flipEntries_throws. by intros k _.
Qed.

(** ** Local resolution *)

Lemma append_cons c s t : String c s +:+ t = String c (s +:+ t).
Proof. reflexivity. Qed.

Lemma stripAnchor_suffix dest :
  ∃ fragment,
    dest = stripAnchor dest +:+ fragment ∧
    (fragment = "" ∨ ∃ f, fragment = String "#" f ∧ noSeparator f = true).
Proof.
  induction dest as [|c rest (fragment & Hrest & Hfrag)]; cbn [stripAnchor].
  - exists "". auto.
  - destruct (Ascii.eqb_spec c "#") as [->|Hc]; cbn [andb].
    + destruct (noSeparator rest) eqn:Hsep.
      * exists (String "#" rest). split; [done|]. right. eauto.
      * exists fragment. split; [|done]. rewrite append_cons. by f_equal.
    + exists fragment. split; [|done]. rewrite append_cons. by f_equal.
Qed.

Lemma stripAnchor_leftmost p : ∀ dest f,
  dest = p +:+ String "#" f → noSeparator f = true →
  (String.length (stripAnchor dest) ≤ String.length p)%nat.
Proof.
  induction p as [|c p IH]; intros dest f -> Hf.
  - change ("" +:+ String "#" f) with (String "#" f). cbn [stripAnchor].
    rewrite Hf. cbn. lia.
  - rewrite append_cons. cbn [stripAnchor].
    destruct (_ && _); cbn; [lia|]. apply le_n_S. by eapply IH.
Qed.



(** The index-file fallback on the example of the specification. *)
Example validLocal_about :
  let files : gmap string bool := {[ "about/index.html" := true ]} in
  files !! "about" = None ∧ validLocal files "index.html" "./about" = true.
Proof. split; vm_compute; reflexivity. Qed.

(** C2: [validLocal] at the reference ["./toString"] cited by
    ["index.html"], in a file set whose only file is ["index.html"]: the
    joined path is ["toString"]; neither it nor ["toString/index.html"] is a
    key of the file set, and yet the answer is [true], because the [in]
    operator also finds the properties that the dictionary inherits; a build
    of that one document ends with the single call [done()]. *)
Theorem validLocal_inherited_name :
  let files : gmap string bool := {[ "index.html" := true ]} in
  linkPathOf "index.html" "./toString" = "toString" ∧
  isSelf (stripAnchor "./toString") = false ∧
  isSelf "toString" = false ∧
  files !! "toString" = None ∧
  files !! Path.join "toString" "index.html" = None ∧
  validLocal files "index.html" "./toString" = true ∧
  Demo.run defaultOptions [ ("index.html", "./toString") ]
  = Some ([None], [Local "index.html" "./toString"]).
Proof. repeat split; vm_compute; reflexivity. Qed.

(** C9 (as amended): the suffix that local resolution strips is empty or
    starts at a [#] after which no slash or backslash occurs, and it starts at
    the leftmost such [#]; a [#] that is followed by a slash or backslash is
    kept. A reference that is then empty, [.] or [./], before or after joining
    with the directory of the citing document, is valid. *)
Theorem validLocal_self (files : gmap string bool) (src dest : string) :
  (∃ fragment,
     dest = stripAnchor dest +:+ fragment ∧
     (fragment = "" ∨ ∃ f, fragment = String "#" f ∧ noSeparator f = true)) ∧
  (∀ p f, dest = p +:+ String "#" f → noSeparator f = true →
          (String.length (stripAnchor dest) ≤ String.length p)%nat) ∧
  (isSelf (stripAnchor dest) = true ∨ isSelf (linkPathOf src dest) = true →
   validLocal files src dest = true).
Proof.
  split_and!.
  - apply stripAnchor_suffix.
  - intros p f. apply stripAnchor_leftmost.
  - unfold validLocal, linkPathOf.
    destruct (isSelf (stripAnchor dest)); [done|].
    intros [H|H]; [done | by rewrite H].
Qed.

Lemma validLocal_self_witness :
  let files : gmap string bool := {[ "about/index.html" := true ]} in
  (isSelf (stripAnchor "..#top") = true
   ∨ isSelf (linkPathOf "about/index.html" "..#top") = true) ∧
  validLocal files "about/index.html" "..#top" = true.
Proof.
  intros files. split; [right; reflexivity|].
  apply (validLocal_self files "about/index.html" "..#top").
  right. reflexivity.
Defined.

(** C9 (as stated) fails: a reference that consists of a fragment only is
    not always stripped to the empty reference; [#/top] keeps its fragment
    and is looked up as a file. *)
Lemma validLocal_keeps_fragment_with_slash :
  ¬ (∀ (files : gmap string bool) src fragment,
       validLocal files src (String "#" fragment) = true).
Proof.
  intros H.
  specialize (H {[ "index.html" := true ]} "index.html" "/top").
  vm_compute in H. discriminate.
Qed.

(** ** Remote validation *)

Lemma classify_spec (statusCode : Z) :
  classify statusCode
  = if decide (400 ≤ statusCode ≤ 599)%Z
    then Some ("HTTP " +:+ pretty statusCode) else None.
Proof.
  unfold classify. case_decide as H.
  - destruct H as [Hlo%Z.leb_le Hhi%Z.leb_le]. by rewrite Hlo, Hhi.
  - destruct (400 <=? statusCode)%Z eqn:H1; [|done].
    destruct (statusCode <=? 599)%Z eqn:H2; [|done].
    destruct H. split; by apply Z.leb_le.
Qed.

Section Remote.
Variable request : bool → method → string → response.

Lemma validUrl_GET link :
  validUrl request link GET
  = (answer (request (isHttps link) GET link),
     [Request (isHttps link) GET link]).
Proof.
  simp validUrl. destruct (request (isHttps link) GET link); reflexivity.
Qed.

Lemma validUrl_HEAD link :
  validUrl request link HEAD
  = if decide (request (isHttps link) HEAD link = Response 405)
    then (answer (request (isHttps link) GET link),
          [Request (isHttps link) HEAD link; Request (isHttps link) GET link])
    else (answer (request (isHttps link) HEAD link),
          [Request (isHttps link) HEAD link]).
Proof.
  simp validUrl.
  destruct (request (isHttps link) HEAD link) as [statusCode|message] eqn:Hr;
    cbn.
  - destruct (Z.eqb_spec statusCode 405) as [->|Hne].
    + rewrite decide_True by done. rewrite validUrl_GET. reflexivity.
    + rewrite decide_False by congruence. reflexivity.
  - rewrite decide_False by done. reflexivity.
Qed.

End Remote.


(** A failure is passed on with its message, whatever the message. *)
Lemma validUrl_failure request link message :
  request (isHttps link) HEAD link = Failure message →
  validUrl request link HEAD = (Some message, [Request (isHttps link) HEAD link]).
Proof. intros H. rewrite validUrl_HEAD, H. reflexivity. Qed.

(** C4: a request that fails with an error whose message is empty. The
    outcome handed to the callback is the empty string, not ['no response'];
    the completion callback reads it as falsy, so the reference counts as
    valid and the build ends with the single call [done()]. *)
Theorem validUrl_failure_without_message :
  let link := "http://down.example/" in
  validUrl Demo.silentFailure link HEAD = (Some "", [Request false HEAD link]) ∧
  truthy (Some (Some "")) = false ∧
  Demo.runOffline defaultOptions [("index.html", link)]
  = Some ([None], [Request false HEAD link]).
Proof. repeat split; vm_compute; reflexivity. Qed.

(** ** Dispatch *)

Lemma endsWithColon_append scheme : endsWithColon (scheme +:+ ":") = true.
Proof.
  induction scheme as [|c [|c' rest] IH]; [reflexivity..|].
  rewrite append_cons. exact IH.
Qed.

(** A protocol never names an inherited property. *)
Lemma inherited_protocol scheme : inherited (scheme +:+ ":") = false.
Proof.
  destruct (inherited (scheme +:+ ":")) eqn:H; [|done].
  unfold inherited in H. apply existsb_exists in H as (name & Hin & Heq).
  apply String.eqb_eq in Heq. pose proof (endsWithColon_append scheme) as Hc.
  rewrite Heq in Hc. unfold objectPrototype in Hin. simpl in Hin.
  repeat (destruct Hin as [<-|Hin]; [discriminate|]). done.
Qed.

Lemma append_colon_inj a : ∀ b, a +:+ ":" = b +:+ ":" → a = b.
Proof.
  induction a as [|c a IH]; intros [|c' b] H; [done | | |].
  - injection H as _ H. by destruct b.
  - injection H as _ H. by destruct a.
  - injection H as -> H. f_equal. by apply IH.
Qed.

Section Dispatch.
Variable request : bool → method → string → response.
Variable urlScheme : string → option string.

Lemma protocolValidators_spec scheme :
  js_get (protocolValidators request) (scheme +:+ ":")
  = if decide (scheme = "http" ∨ scheme = "https")
    then Own (λ link, validUrl request link HEAD)
    else Undefined.
Proof.
  unfold js_get, protocolValidators. cbn [obj_get].
  rewrite inherited_protocol.
  destruct (String.eqb_spec "http:" (scheme +:+ ":")) as [H1|H1].
  { apply (append_colon_inj "http") in H1 as <-.
    rewrite decide_True; [done | by left]. }
  destruct (String.eqb_spec "https:" (scheme +:+ ":")) as [H2|H2].
  { apply (append_colon_inj "https") in H2 as <-.
    rewrite decide_True; [done | by right]. }
  rewrite decide_False; [done|]. intros [->| ->]; done.
Qed.

Lemma badFilenames_spec names filenames link :
  badFilenames names filenames link
  = (filter (λ filename, validLocal names filename link = false) filenames,
     (λ filename, Local filename link) <$> filenames).
Proof.
  induction filenames as [|filename rest IH]; [reflexivity|].
  cbn [badFilenames]. rewrite IH. rewrite filter_cons, fmap_cons.
  destruct (validLocal names filename link);
    [rewrite decide_False by done | rewrite decide_True by done];
    run_traced; by rewrite app_nil_r.
Qed.

Lemma iteratee_spec names filenames link :
  iteratee request urlScheme names filenames link
  = match urlScheme link with
    | Some scheme =>
        if decide (scheme = "http" ∨ scheme = "https")
        then validUrl request link HEAD
        else (None, [])
    | None =>
        (if forallb (λ filename, validLocal names filename link) filenames
         then None else Some "not found",
         (λ filename, Local filename link) <$> filenames)
    end.
Proof.
  unfold iteratee. destruct (urlScheme link) as [scheme|].
  - rewrite protocolValidators_spec. by case_decide.
  - rewrite badFilenames_spec. run_traced. rewrite app_nil_r. f_equal.
    induction filenames as [|filename rest IH]; [reflexivity|].
    rewrite filter_cons. cbn [forallb].
    destruct (validLocal names filename link); cbn.
    + rewrite decide_False by done. exact IH.
    + rewrite decide_True by done. reflexivity.
Qed.

End Dispatch.

(** C7: the iteratee is total and decides by the scheme that URL parsing
    finds: with [http] or [https] its answer and its requests are those of
    the remote validator; with any other scheme the outcome is valid and no
    validator is called; without a scheme the local resolver is called for
    the citing documents and the outcome is valid when every call succeeds and
    ['not found'] otherwise. *)
Theorem iteratee_dispatch (request : bool → method → string → response)
    (urlScheme : string → option string) (names : gmap string bool)
    (filenames : list string) (link : string) :
  iteratee request urlScheme names filenames link
  = match urlScheme link with
    | Some scheme =>
        if decide (scheme = "http" ∨ scheme = "https")
        then validUrl request link HEAD
        else (None, [])
    | None =>
        (if forallb (λ filename, validLocal names filename link) filenames
         then None else Some "not found",
         (λ filename, Local filename link) <$> filenames)
    end.
Proof. apply iteratee_spec. Qed.

Example iteratee_mailto names filenames :
  iteratee Demo.request Demo.urlScheme names filenames "mailto:me@example.com"
  = (None, []).
Proof. reflexivity. Qed.

(** ** The objects of a run *)

Lemma js_assign_wellFormed {V} (o : obj V) k v :
  wellFormed o → wellFormed (js_assign o k v).
Proof.
  intros [Hnd Hproto]. unfold js_assign.
  destruct (String.eqb_spec k "__proto__") as [->|Hk]; [done|].
  split; [by apply obj_set_NoDup|].
  rewrite obj_keys_set. case_decide; [done|].
  rewrite elem_of_app, list_elem_of_singleton. intros [|]; congruence.
Qed.

Lemma js_assign_fresh {V} (o : obj V) k v :
  k ≠ "__proto__" → k ∉ obj_keys o → js_assign o k v = o ++ [(k, v)].
Proof.
  intros Hk Hfresh. unfold js_assign.
  destruct (String.eqb_spec k "__proto__"); [done|]. clear Hk.
  unfold obj_keys in Hfresh.
  induction o as [|[k0 v0] o IH]; [reflexivity|].
  rewrite fmap_cons in Hfresh. apply not_elem_of_cons in Hfresh as [Hne Hfresh].
  cbn [obj_set fst] in *. destruct (String.eqb_spec k0 k); [congruence|].
  by rewrite IH.
Qed.

Lemma obj_get_filter_key {V} (P : string → Prop) `{∀ k, Decision (P k)}
    (o : obj V) k :
  obj_get (filter (λ kv, P kv.1) o) k = if decide (P k) then obj_get o k else None.
Proof.
  induction o as [|[k0 v0] o IH]; [by case_decide|].
  rewrite filter_cons. cbn [fst obj_get].
  destruct (decide (P k0)) as [HP|HP]; cbn [obj_get]; rewrite IH.
  - destruct (String.eqb_spec k0 k) as [->|]; [|done].
    rewrite !decide_True by done. reflexivity.
  - destruct (String.eqb_spec k0 k) as [->|]; [|done].
    rewrite !decide_False by done. reflexivity.
Qed.

Lemma filter_keys_NoDup {V} (P : string * V → Prop) `{∀ kv, Decision (P kv)}
    (o : obj V) :
  NoDup (obj_keys o) → NoDup (obj_keys (filter P o)).
Proof.
  unfold obj_keys. intros Hnd. eapply sublist_NoDup; [exact Hnd|].
  apply fmap_sublist, sublist_filter.
Qed.

(** ** Counting validator calls *)

Lemma countCalls_app p t1 t2 :
  countCalls p (t1 ++ t2) = countCalls p t1 + countCalls p t2.
Proof. induction t1 as [|e t1 IH]; cbn; [done | rewrite IH; lia]. Qed.

Lemma countCalls_concat p (ts : list (list event)) :
  countCalls p (concat ts) = sum_list (countCalls p <$> ts).
Proof.
  induction ts as [|t ts IH]; cbn; [done|]. by rewrite countCalls_app, IH.
Qed.

(** A sum over the entries of an object to which only the entry of [k]
    contributes. *)
Lemma sum_list_at_key {V} (g : string * V → nat) (o : obj V) k :
  NoDup (obj_keys o) →
  (∀ kv, kv ∈ o → kv.1 ≠ k → g kv = 0) →
  sum_list (g <$> o) = match obj_get o k with Some v => g (k, v) | None => 0 end.
Proof.
  unfold obj_keys. induction o as [|[k0 v0] o IH]; intros Hnd Hzero; [done|].
  rewrite fmap_cons in Hnd. apply NoDup_cons in Hnd as [Hk0 Hnd].
  rewrite fmap_cons. cbn [sum_list obj_get].
  specialize (IH Hnd (λ kv H, Hzero kv (list_elem_of_further _ _ _ H))).
  destruct (String.eqb_spec k0 k) as [->|Hne].
  - rewrite IH. apply obj_get_None in Hk0. cbn [fst] in Hk0. rewrite Hk0.
    unfold id. lia.
  - rewrite IH, (Hzero (k0, v0)); [done | left | done].
Qed.

Lemma filter_ext_elem_of {A} (P Q : A → Prop)
    `{∀ x, Decision (P x)} `{∀ x, Decision (Q x)} (l : list A) :
  (∀ x, x ∈ l → P x ↔ Q x) → filter P l = filter Q l.
Proof.
  induction l as [|x l IH]; intros Hext; [done|].
  rewrite !filter_cons. rewrite IH by (intros; apply Hext; by right).
  destruct (decide (P x)) as [HP|HP], (decide (Q x)) as [HQ|HQ]; try done;
    apply Hext in HP || apply Hext in HQ; try done; left.
Qed.

(** Deleting the ignored links keeps the other entries, in order. *)
Lemma removeIgnored_spec res (linksToFilenames : obj (list string)) :
  removeIgnored res linksToFilenames
  = filter (λ kv, ignored res kv.1 = false) linksToFilenames.
Proof.
  unfold removeIgnored.
  assert (Hdel : ∀ ks (o : obj (list string)),
            fold_left (λ o link, obj_delete o link) ks o
            = filter (λ kv, kv.1 ∉ ks) o).
  { induction ks as [|k ks IH]; intros o; cbn [fold_left].
    - induction o as [|kv o IHo]; [done|].
      rewrite filter_cons, decide_True by apply not_elem_of_nil.
      by rewrite <- IHo.
    - rewrite IH. unfold obj_delete. rewrite list_filter_filter.
      apply list_filter_iff. intros kv. rewrite not_elem_of_cons. tauto. }
  rewrite Hdel. apply filter_ext_elem_of. intros [k fs] Hin. cbn [fst].
  rewrite list_elem_of_filter. split.
  - intros Hnot. destruct (ignored res k) eqn:Hk; [|done].
    destruct Hnot. split; [done|]. apply list_elem_of_fmap. by exists (k, fs).
  - intros Hk [Hk' _]. congruence.
Qed.

(** The flipped mapping, read at any reference. *)
Lemma flipObjectOfArrays_lookup input :
  ownValues input = true →
  ∃ output,
    flipObjectOfArrays input = Some output ∧
    NoDup (obj_keys output) ∧
    ∀ link, obj_get output link
            = match citations input link with
              | [] => None
              | cited => Some cited
              end.
Proof.
  intros Hown. unfold flipObjectOfArrays.
  destruct (flipEntries_spec input []) as (output & Hflip & Hl & Hs & Hnd);
    [by apply ownValues_spec|].
  exists output. split_and!; [done | apply Hnd; constructor |].
  intros link. specialize (Hl link). specialize (Hs link).
  unfold lookupList in Hl. cbn in Hl.
  destruct (obj_get output link) as [keys|] eqn:Hget; cbn in Hl.
  - subst keys.
    destruct Hs as [[Hs|Hs] _]; [eauto | by destruct Hs |].
    apply citations_nonempty in Hs.
    by destruct (citations input link).
  - by rewrite <- Hl.
Qed.

Section Run.
Variable request : bool → method → string → response.
Variable urlScheme : string → option string.
Variable RegExp : string → option (string → bool).
Variable minimatch : string → string → bool.
Variable cheerio : string → string → string → list string.

Lemma htmlLinks_wellFormed files o :
  wellFormed (htmlLinks minimatch cheerio files o).
Proof.
  unfold htmlLinks.
  set (selected := filter _ files). clearbody selected.
  assert (Hwf : wellFormed (@nil (string * list string))).
  { split; [constructor | apply not_elem_of_nil]. }
  revert Hwf. generalize (@nil (string * list string)).
  induction selected as [|[filename contents] rest IH]; intros acc Hwf; [done|].
  cbn [fold_left]. apply IH. by apply js_assign_wellFormed.
Qed.

Lemma mapValues_spec names (linksToFilenames : obj (list string)) :
  mapValues request urlScheme names linksToFilenames
  = ((λ kv, (kv.1, (iteratee request urlScheme names kv.2 kv.1).1))
       <$> linksToFilenames,
     concat ((λ kv, (iteratee request urlScheme names kv.2 kv.1).2)
               <$> linksToFilenames)).
Proof.
  induction linksToFilenames as [|[link filenames] rest IH]; [reflexivity|].
  cbn [mapValues]. rewrite IH, !fmap_cons. cbn [fst snd concat]. run_traced.
  destruct (iteratee request urlScheme names filenames link) as [value t].
  cbn [fst snd]. by rewrite app_nil_r.
Qed.

Lemma isRequestFor_same m lib link : isRequestFor m link (Request lib m link) = true.
Proof. cbn. rewrite String.eqb_refl. by destruct m. Qed.

Lemma isRequestFor_other m m' lib link link' :
  link ≠ link' → isRequestFor m link' (Request lib m' link) = false.
Proof.
  intros Hne. cbn. destruct (String.eqb_spec link link'); [done|].
  apply andb_false_r.
Qed.

Lemma validUrl_counts link link' :
  let t := (validUrl request link HEAD).2 in
  countCalls (isRequestFor HEAD link') t = (if decide (link = link') then 1 else 0) ∧
  countCalls (isRequestFor GET link') t ≤ (if decide (link = link') then 1 else 0) ∧
  countCalls (isLocalFor link') t = 0.
Proof.
  cbn zeta. rewrite validUrl_HEAD.
  destruct (decide (link = link')) as [<-|Hne].
  - case_decide; cbn [snd countCalls]; rewrite ?isRequestFor_same; cbn;
      rewrite ?String.eqb_refl; cbn; lia.
  - case_decide; cbn [snd countCalls];
      rewrite ?isRequestFor_other by done; cbn; lia.
Qed.

Lemma local_counts filenames link link' :
  let t := (λ filename, Local filename link) <$> filenames in
  (∀ m, countCalls (isRequestFor m link') t = 0) ∧
  countCalls (isLocalFor link') t
  = (if decide (link = link') then length filenames else 0).
Proof.
  cbn zeta. split.
  - intros m. induction filenames as [|f fs IH]; [done|]. exact IH.
  - induction filenames as [|f fs IH]; [by case_decide|].
    rewrite fmap_cons. cbn [countCalls isLocalFor]. rewrite IH.
    destruct (String.eqb_spec link link'); case_decide; try done; cbn; lia.
Qed.

(** The calls made for one entry of the flipped mapping. *)
Lemma entry_counts names (kv : string * list string) link' :
  let t := (iteratee request urlScheme names kv.2 kv.1).2 in
  countCalls (isRequestFor HEAD link') t
  = (if decide (kv.1 = link') then (if remote urlScheme kv.1 then 1 else 0) else 0) ∧
  countCalls (isRequestFor GET link') t
  ≤ (if decide (kv.1 = link') then (if remote urlScheme kv.1 then 1 else 0) else 0) ∧
  countCalls (isLocalFor link') t
  = (if decide (kv.1 = link') then
       (if schemeless urlScheme kv.1 then length kv.2 else 0) else 0).
Proof.
  destruct kv as [link filenames]. cbn [fst snd]. cbn zeta.
  rewrite iteratee_spec. unfold remote, schemeless.
  destruct (urlScheme link) as [scheme|].
  - destruct (decide (scheme = "http" ∨ scheme = "https")) as [Hs|Hs].
    + rewrite bool_decide_eq_true_2 by done.
      destruct (validUrl_counts link link') as (-> & H2 & ->).
      split_and!; [by case_decide | by case_decide | by case_decide].
    + rewrite bool_decide_eq_false_2 by done. cbn.
      split_and!; by case_decide.
  - cbn [snd]. destruct (local_counts filenames link link') as [H1 ->].
    rewrite !H1. split_and!; [by case_decide | case_decide; lia | done].
Qed.

End Run.

(** C1 (as amended): in a run that does not throw, the iteratee runs once
    for every distinct reference that is not ignored. A reference with scheme
    [http] or [https] is probed with exactly one [HEAD] request (and at most
    one [GET] request) however many documents cite it; a reference without a
    scheme is resolved locally once per citation, that is, once for every
    occurrence in every citing document; an ignored reference is not
    validated at all. *)
Theorem validator_calls
    (request : bool → method → string → response)
    (urlScheme : string → option string)
    (RegExp : string → option (string → bool))
    (minimatch : string → string → bool)
    (cheerio : string → string → string → list string)
    (o : options) (files : obj string) (res : list (string → bool)) :
  ownValues (htmlLinks minimatch cheerio files o) = true →
  mapM RegExp (ignore o) = Some res →
  ∃ dones t,
    plugin request urlScheme RegExp minimatch cheerio o files = Some (dones, t) ∧
    ∀ link,
      let cited := citations (htmlLinks minimatch cheerio files o) link in
      countCalls (isRequestFor HEAD link) t
      = (if remote urlScheme link && negb (ignored res link)
            && negb (Nat.eqb (length cited) 0)
         then 1 else 0) ∧
      countCalls (isRequestFor GET link) t
      ≤ countCalls (isRequestFor HEAD link) t ∧
      countCalls (isLocalFor link) t
      = (if schemeless urlScheme link && negb (ignored res link)
         then length cited else 0).
Proof.
  intros Hown Hres. unfold plugin.
  destruct (flipObjectOfArrays_lookup _ Hown) as (l2f & -> & Hnd & Hget).
  rewrite Hres. cbn [mbind option_bind].
  rewrite removeIgnored_spec, mapValues_spec. run_traced.
  eexists _, _. split; [reflexivity|].
  intros link. cbn zeta. rewrite app_nil_r, !countCalls_concat.
  rewrite <- !list_fmap_compose.
  set (live := filter (λ kv, ignored res kv.1 = false) l2f).
  assert (Hlive : NoDup (obj_keys live)) by by apply filter_keys_NoDup.
  assert (Hlook : obj_get live link
                  = if ignored res link then None
                    else match citations (htmlLinks minimatch cheerio files o) link with
                         | [] => None
                         | cited => Some cited
                         end).
  { unfold live.
    pose proof (obj_get_filter_key (λ k, ignored res k = false) l2f link) as Hf.
    cbn beta in Hf. rewrite Hf, Hget.
    destruct (ignored res link); by case_decide. }
  pose proof (λ kv, entry_counts request urlScheme
                      (normalizedFilenames files) kv link) as Hentry.
  cbn zeta in Hentry.
  set (entry := λ kv : string * list string,
         (iteratee request urlScheme (normalizedFilenames files) kv.2 kv.1).2)
    in *.
  assert (Hsum : ∀ p,
            (∀ kv, kv.1 ≠ link → countCalls p (entry kv) = 0) →
            sum_list (countCalls p ∘ entry <$> live)
            = match obj_get live link with
              | Some v => countCalls p (entry (link, v))
              | None => 0
              end).
  { intros p Hzero. rewrite (sum_list_at_key _ live link Hlive); [done|].
    intros kv _ Hne. cbn [compose]. auto. }
  rewrite !Hsum.
  - rewrite Hlook.
    specialize (Hentry (link, citations (htmlLinks minimatch cheerio files o) link)).
    cbn [fst snd] in Hentry. rewrite !decide_True in Hentry by done.
    destruct (ignored res link); cbn [negb andb];
      [rewrite !andb_false_r; split_and!; [done | lia | done]|].
    rewrite !andb_true_r.
    destruct (citations (htmlLinks minimatch cheerio files o) link) as [|c cs];
      cbn [length Nat.eqb negb].
    + rewrite andb_false_r. split_and!; [done | lia |].
      by destruct (schemeless urlScheme link).
    + rewrite andb_true_r. unfold entry. cbn [fst snd].
      destruct Hentry as (-> & H2 & ->). done.
  - intros kv Hne. unfold entry. destruct (Hentry kv) as (_ & _ & ->).
    by rewrite decide_False.
  - intros kv Hne. unfold entry. destruct (Hentry kv) as (_ & H & _).
    rewrite decide_False in H by done. lia.
  - intros kv Hne. unfold entry. destruct (Hentry kv) as (-> & _ & _).
    by rewrite decide_False.
Qed.

Lemma validator_calls_witness :
  let files := [ ("a.html", "x http://e.org/ x"); ("b.html", "http://e.org/ x") ] in
  ownValues (htmlLinks Demo.minimatch Demo.cheerio files defaultOptions) = true ∧
  mapM Demo.RegExp (ignore defaultOptions) = Some [] ∧
  ∃ dones t,
    Demo.run defaultOptions files = Some (dones, t) ∧
    ∀ link,
      let cited :=
        citations (htmlLinks Demo.minimatch Demo.cheerio files defaultOptions) link in
      countCalls (isRequestFor HEAD link) t
      = (if remote Demo.urlScheme link && negb (ignored [] link)
            && negb (Nat.eqb (length cited) 0)
         then 1 else 0) ∧
      countCalls (isRequestFor GET link) t
      ≤ countCalls (isRequestFor HEAD link) t ∧
      countCalls (isLocalFor link) t
      = (if schemeless Demo.urlScheme link && negb (ignored [] link)
         then length cited else 0).
Proof.
  intros files. split; [reflexivity|]. split; [reflexivity|].
  apply (validator_calls Demo.request Demo.urlScheme Demo.RegExp
           Demo.minimatch Demo.cheerio defaultOptions files []);
    reflexivity.
Defined.

(** C1 (as stated) fails: a reference without a scheme that three documents
    cite is resolved locally three times, once for each citing document. *)
Lemma validLocal_called_per_citation :
  ¬ (∀ (request : bool → method → string → response)
       (urlScheme : string → option string)
       (RegExp : string → option (string → bool))
       (minimatch : string → string → bool)
       (cheerio : string → string → string → list string)
       (o : options) (files : obj string) dones t link,
       plugin request urlScheme RegExp minimatch cheerio o files = Some (dones, t) →
       countCalls (isRequestFor HEAD link) t + countCalls (isLocalFor link) t ≤ 1).
Proof.
  intros H.
  specialize (H Demo.request Demo.urlScheme Demo.RegExp Demo.minimatch
                Demo.cheerio defaultOptions
                [ ("a.html", "x"); ("b.html", "x"); ("c.html", "x") ]
                _ _ "x" eq_refl).
  vm_compute in H. lia.
Qed.

(** ** The report *)

(** The error mapping of a well-formed document mapping: the documents with
    at least one broken reference, in enumeration order, each with its
    formatted lines. *)
Lemma filenamesToLinkErrors_fold (result : obj outcome) (l : obj (list string)) :
  ∀ acc : obj (list string),
    NoDup (obj_keys acc ++ obj_keys l) → "__proto__" ∉ obj_keys l →
    fold_left
      (λ acc '(filename, links),
         let errors := linkErrors result links in
         if Nat.eqb (length errors) 0 then acc
         else js_assign acc filename errors)
      l acc
    = acc ++ ((λ kv, (kv.1, linkErrors result kv.2))
                <$> filter (λ kv, linkErrors result kv.2 ≠ []) l).
Proof.
  unfold obj_keys.
  induction l as [|[filename links] l IH]; intros acc Hnd Hproto.
  - cbn. by rewrite app_nil_r.
  - rewrite fmap_cons in Hnd, Hproto. cbn [fst] in Hnd, Hproto.
    apply not_elem_of_cons in Hproto as [Hname Hproto].
    cbn [fold_left]. rewrite filter_cons. cbn [snd].
    destruct (linkErrors result links) as [|e es] eqn:Herr; cbn [length Nat.eqb].
    + rewrite decide_False by auto. apply IH; [|done].
      apply NoDup_app in Hnd as (H1 & H2 & H3). apply NoDup_cons in H3 as [_ H3].
      apply NoDup_app. split_and!; [done | | done].
      intros x Hx Hx'. apply (H2 x Hx). by right.
    + rewrite decide_True by done. rewrite fmap_cons. cbn [fst snd].
      rewrite js_assign_fresh; [|done|].
      * rewrite IH; [by rewrite <- app_assoc, Herr | | done].
        rewrite fmap_app, <- app_assoc. exact Hnd.
      * apply NoDup_app in Hnd as (_ & H2 & _). intros Hin.
        apply (H2 _ Hin). left.
Qed.

Lemma filenamesToLinkErrors_spec (filenamesToLinks : obj (list string))
    (result : obj outcome) :
  wellFormed filenamesToLinks →
  filenamesToLinkErrors filenamesToLinks result
  = (λ kv, (kv.1, linkErrors result kv.2))
      <$> filter (λ kv, linkErrors result kv.2 ≠ []) filenamesToLinks.
Proof.
  intros [Hnd Hproto]. unfold filenamesToLinkErrors.
  by rewrite filenamesToLinkErrors_fold.
Qed.

Lemma linkErrors_nonempty (result : obj outcome) links :
  linkErrors result links ≠ []
  ↔ ∃ link, link ∈ links ∧ truthy (obj_get result link) = true.
Proof.
  unfold linkErrors. split.
  - intros Hne.
    destruct (filter _ links) as [|link rest] eqn:Hf; [done|].
    exists link. apply and_comm.
    apply (list_elem_of_filter (λ link, truthy (obj_get result link) = true)).
    rewrite Hf. left.
  - intros (link & Hin & Hbroken) Hnil. apply fmap_nil_inv in Hnil.
    assert (H : link ∈ filter (λ link, truthy (obj_get result link) = true) links)
      by by apply list_elem_of_filter.
    rewrite Hnil in H. by apply elem_of_nil in H.
Qed.

(** The lines of a document of the error mapping. *)
Lemma filenamesToLinkErrors_lookup (filenamesToLinks : obj (list string))
    (result : obj outcome) doc links :
  wellFormed filenamesToLinks →
  (doc, links) ∈ filenamesToLinks →
  obj_get (filenamesToLinkErrors filenamesToLinks result) doc
  = if decide (linkErrors result links = []) then None
    else Some (linkErrors result links).
Proof.
  intros Hwf Hin. rewrite filenamesToLinkErrors_spec by done.
  destruct Hwf as [Hnd _].
  set (errors := (λ kv, (kv.1, linkErrors result kv.2))
                   <$> filter (λ kv, linkErrors result kv.2 ≠ []) filenamesToLinks).
  assert (Hkeys : obj_keys errors
                  = obj_keys (filter (λ kv, linkErrors result kv.2 ≠ [])
                                     filenamesToLinks)).
  { unfold errors, obj_keys. rewrite <- list_fmap_compose.
    by apply list_fmap_ext. }
  assert (Hnd' : NoDup (obj_keys errors)).
  { rewrite Hkeys. by apply filter_keys_NoDup. }
  case_decide as Hempty.
  - apply obj_get_None. rewrite Hkeys. unfold obj_keys.
    intros ([doc' links'] & Heq & Hin')%list_elem_of_fmap. cbn in Heq. subst doc'.
    apply list_elem_of_filter in Hin' as [Hne Hin']. cbn in Hne.
    assert (links' = links) as ->; [|done].
    apply (obj_get_NoDup _ _ _ Hnd) in Hin, Hin'. congruence.
  - apply obj_get_NoDup; [done|]. unfold errors.
    apply list_elem_of_fmap. exists (doc, links). split; [done|].
    by apply list_elem_of_filter.
Qed.

Lemma filenamesToLinkErrors_keys (filenamesToLinks : obj (list string))
    (result : obj outcome) doc :
  wellFormed filenamesToLinks →
  doc ∈ obj_keys (filenamesToLinkErrors filenamesToLinks result)
  ↔ ∃ links, (doc, links) ∈ filenamesToLinks ∧
             ∃ link, link ∈ links ∧ truthy (obj_get result link) = true.
Proof.
  intros Hwf. rewrite filenamesToLinkErrors_spec by done. unfold obj_keys.
  rewrite <- list_fmap_compose. split.
  - intros ([doc' links] & Heq & Hin)%list_elem_of_fmap. cbn in Heq. subst doc'.
    apply list_elem_of_filter in Hin as [Hne Hin]. cbn in Hne.
    exists links. split; [done|]. by apply linkErrors_nonempty.
  - intros (links & Hin & Hbroken). apply list_elem_of_fmap.
    exists (doc, links). split; [done|]. apply list_elem_of_filter.
    split; [|done]. by apply linkErrors_nonempty.
Qed.



Lemma sort_Sorted l : Sorted String.le (sort l).
Proof. apply Sorted_merge_sort; apply _. Qed.

Lemma sort_Permutation l : sort l ≡ₚ l.
Proof. apply merge_sort_Permutation. Qed.

(** Whatever algorithm sorts the array, the result is the same list. *)
Lemma sort_unique l l' : Sorted String.le l' → l' ≡ₚ l → l' = sort l.
Proof.
  intros Hsorted Hperm. apply (Sorted_unique String.le); [done | apply sort_Sorted |].
  by rewrite sort_Permutation.
Qed.



(** The report of the example of the specification: [a.html] comes before
    [b.html] although [b.html] is enumerated first. *)
Example report_a_before_b :
  report (filenamesToLinkErrors
            [ ("b.html", ["y"; "x"]); ("a.html", ["x"]) ]
            [ ("y", Some "HTTP 404"); ("x", Some "not found") ])
  = join newline
      [ "Broken links found:"; "";
        "a.html:"; "  x (not found)"; "";
        "b.html:"; "  x (not found)"; "  y (HTTP 404)" ].
Proof. vm_compute. reflexivity. Qed.

(** ** The calls of [done] *)

Lemma complete_spec (filenamesToLinks : obj (list string)) (result : obj outcome) :
  complete filenamesToLinks result
  = match filenamesToLinkErrors filenamesToLinks result with
    | [] => [None]
    | errors => [Some (report errors); None]
    end.
Proof.
  unfold complete. by destruct (filenamesToLinkErrors filenamesToLinks result).
Qed.

(** C8: a build of one document with one broken local reference. The
    completion callback calls [done] with the message and then, because
    nothing returns after that call, calls [done()] as well: the failure is
    followed by the signal of success. *)
Theorem done_called_twice :
  Demo.run defaultOptions [ ("index.html", "missing") ]
  = Some ([ Some (join newline [ "Broken links found:"; "";
                                  "index.html:"; "  missing (not found)" ]);
            None ],
          [ Local "index.html" "missing" ]).
Proof. vm_compute. reflexivity. Qed.

(** ** One outcome for all citing documents *)

Lemma obj_get_fmap_values {V W} (g : string * V → W) (o : obj V) k :
  obj_get ((λ kv, (kv.1, g kv)) <$> o) k = (λ v, g (k, v)) <$> obj_get o k.
Proof.
  induction o as [|[k0 v0] o IH]; [done|].
  rewrite fmap_cons. cbn [obj_get fst].
  destruct (String.eqb_spec k0 k) as [->|]; [done | exact IH].
Qed.

Lemma elem_of_citations input doc link :
  doc ∈ citations input link ↔ ∃ links, (doc, links) ∈ input ∧ link ∈ links.
Proof.
  unfold citations. rewrite list_elem_of_In, in_concat. split.
  - intros (l & Hl & Hdoc). apply in_map_iff in Hl as ([key vals] & <- & Hin).
    apply list_elem_of_In in Hdoc, Hin.
    apply list_elem_of_fmap in Hdoc as (val & -> & Hval).
    apply list_elem_of_filter in Hval as [-> Hval]. eauto.
  - intros (links & Hin & Hlink).
    exists ((λ _, doc) <$> filter (λ v, v = link) links). split.
    + apply in_map_iff. exists (doc, links). split; [done|].
      by apply list_elem_of_In.
    + apply list_elem_of_In, list_elem_of_fmap. exists link. split; [done|].
      by apply list_elem_of_filter.
Qed.

(** C10: in a run that does not throw, a reference without a scheme that is
    not ignored and fails to resolve from at least one citing document has the
    single outcome ['not found'], and the error mapping lists it, with that
    reason, for every document that cites it, also for the documents from
    which it resolves. *)
Theorem not_found_for_every_citing_document
    (request : bool → method → string → response)
    (urlScheme : string → option string)
    (RegExp : string → option (string → bool))
    (minimatch : string → string → bool)
    (cheerio : string → string → string → list string)
    (o : options) (files : obj string) (res : list (string → bool))
    (link : string) :
  let filenamesToLinks := htmlLinks minimatch cheerio files o in
  let names := normalizedFilenames files in
  ownValues filenamesToLinks = true →
  mapM RegExp (ignore o) = Some res →
  urlScheme link = None →
  ignored res link = false →
  (∃ doc links, (doc, links) ∈ filenamesToLinks ∧ link ∈ links ∧
                validLocal names doc link = false) →
  ∃ linksToFilenames result t,
    flipObjectOfArrays filenamesToLinks = Some linksToFilenames ∧
    mapValues request urlScheme names (removeIgnored res linksToFilenames)
    = (result, t) ∧
    plugin request urlScheme RegExp minimatch cheerio o files
    = Some (complete filenamesToLinks result, t) ∧
    obj_get result link = Some (Some "not found") ∧
    ∀ doc links, (doc, links) ∈ filenamesToLinks → link ∈ links →
      ∃ errors,
        obj_get (filenamesToLinkErrors filenamesToLinks result) doc = Some errors ∧
        link +:+ " (not found)" ∈ errors.
Proof.
  intros f2l names Hown Hres Hscheme Hlive (bad & blinks & Hbad & Hblink & Hinvalid).
  destruct (flipObjectOfArrays_lookup _ Hown) as (l2f & Hflip & Hnd & Hget).
  destruct (mapValues request urlScheme names (removeIgnored res l2f))
    as [result t] eqn:Hmap.
  assert (Hresult : obj_get result link = Some (Some "not found")).
  { rewrite removeIgnored_spec, mapValues_spec in Hmap. injection Hmap as <- _.
    rewrite (obj_get_fmap_values
               (λ kv, (iteratee request urlScheme names kv.2 kv.1).1)).
    pose proof (obj_get_filter_key (λ k, ignored res k = false) l2f link) as Hf.
    cbn beta in Hf. rewrite Hf, decide_True, Hget by done.
    assert (Hcited : bad ∈ citations f2l link) by (apply elem_of_citations; eauto).
    destruct (citations f2l link) as [|c cs] eqn:Hc; [by apply elem_of_nil in Hcited|].
    cbn [fmap option_fmap option_map fst snd]. rewrite iteratee_spec, Hscheme.
    cbn [fst]. f_equal.
    destruct (forallb _ (c :: cs)) eqn:Hall; [|done].
    rewrite forallb_forall in Hall. apply list_elem_of_In, Hall in Hcited.
    congruence. }
  exists l2f, result, t. split_and!; [done | done | | done |].
  - unfold plugin. fold f2l names. rewrite Hflip, Hres. cbn [mbind option_bind].
    rewrite Hmap. run_traced. by rewrite app_nil_r.
  - intros doc links Hdoc Hlink.
    assert (Hline : link +:+ " (not found)" ∈ linkErrors result links).
    { unfold linkErrors. apply list_elem_of_fmap. exists link.
      rewrite Hresult. split; [done|]. apply list_elem_of_filter.
      by rewrite Hresult. }
    exists (linkErrors result links). split; [|done].
    rewrite (filenamesToLinkErrors_lookup _ _ doc links);
      [| apply htmlLinks_wellFormed | done].
    rewrite decide_False; [done|]. intros Hnil. rewrite Hnil in Hline.
    by apply elem_of_nil in Hline.
Qed.

Lemma not_found_for_every_citing_document_witness :
  let files := [ ("index.html", "page.html"); ("docs/index.html", "page.html");
                 ("docs/page.html", "") ] in
  let filenamesToLinks := htmlLinks Demo.minimatch Demo.cheerio files defaultOptions in
  let names := normalizedFilenames files in
  let link := "page.html" in
  ownValues filenamesToLinks = true ∧
  mapM Demo.RegExp (ignore defaultOptions) = Some [] ∧
  Demo.urlScheme link = None ∧
  ignored [] link = false ∧
  validLocal names "docs/index.html" link = true ∧
  validLocal names "index.html" link = false ∧
  ∃ linksToFilenames result t,
    flipObjectOfArrays filenamesToLinks = Some linksToFilenames ∧
    mapValues Demo.request Demo.urlScheme names (removeIgnored [] linksToFilenames)
    = (result, t) ∧
    Demo.run defaultOptions files = Some (complete filenamesToLinks result, t) ∧
    obj_get result link = Some (Some "not found") ∧
    ∀ doc links, (doc, links) ∈ filenamesToLinks → link ∈ links →
      ∃ errors,
        obj_get (filenamesToLinkErrors filenamesToLinks result) doc = Some errors ∧
        link +:+ " (not found)" ∈ errors.
Proof.
  intros files filenamesToLinks names link.
  split_and!; [reflexivity.. |].
  apply (not_found_for_every_citing_document Demo.request Demo.urlScheme
           Demo.RegExp Demo.minimatch Demo.cheerio defaultOptions files [] link);
    [reflexivity.. |].
  exists "index.html", ["page.html"]. split_and!; [left | left | reflexivity].
Defined.

(** * Further properties of the code *)

(** ** Path normalization and [htmlLinks] *)

(** X3: replacing the separators leaves no backslash, keeps the length,
    changes nothing when applied again, and is the identity exactly on the
    names that have no backslash. *)
Theorem normalizeSeparators_spec (s : string) :
  hasBackslash (normalizeSeparators s) = false ∧
  String.length (normalizeSeparators s) = String.length s ∧
  normalizeSeparators (normalizeSeparators s) = normalizeSeparators s ∧
  (normalizeSeparators s = s ↔ hasBackslash s = false).
Proof.
  induction s as [|c s (IH1 & IH2 & IH3 & IH4)]; [by repeat split|].
  cbn [normalizeSeparators hasBackslash String.length].
  destruct (Ascii.eqb_spec c "\") as [->|Hc]; cbn [hasBackslash normalizeSeparators orb].
  - split_and!; [done | by rewrite IH2 | by rewrite IH3 |].
    cbn. split; [intros [=] | discriminate].
  - destruct (Ascii.eqb_spec c "\") as [|_]; [done|]. cbn [orb].
    split_and!; [done | by rewrite IH2 | by rewrite IH3 |].
    rewrite <- IH4. split; [by intros [=] | by intros ->].
Qed.

Lemma obj_get_js_assign {V} (o : obj V) k v k' :
  obj_get (js_assign o k v) k'
  = if decide (k = "__proto__") then obj_get o k'
    else if decide (k = k') then Some v else obj_get o k'.
Proof.
  unfold js_assign. destruct (String.eqb_spec k "__proto__") as [->|Hk].
  - by rewrite decide_True.
  - rewrite decide_False by done. apply obj_get_set.
Qed.

Lemma htmlLinks_fold (cheerio : string → string → string → list string)
    (o : options) (doc : string) (l : obj string) :
  ∀ acc : obj (list string),
    obj_get
      (fold_left
         (λ acc '(filename, contents),
            js_assign acc (normalizeSeparators filename)
                      (fileLinks cheerio o contents))
         l acc) doc
    = if decide (doc = "__proto__") then obj_get acc doc
      else match last (filter (λ kv, normalizeSeparators kv.1 = doc) l).*2 with
           | Some contents => Some (fileLinks cheerio o contents)
           | None => obj_get acc doc
           end.
Proof.
  induction l as [|[filename contents] l IH]; intros acc.
  - cbn. by case_decide.
  - cbn [fold_left]. rewrite IH, obj_get_js_assign, filter_cons. cbn [fst].
    destruct (decide (doc = "__proto__")) as [->|Hdoc].
    + by repeat case_decide.
    + destruct (decide (normalizeSeparators filename = doc)) as [Hname|Hname].
      * rewrite fmap_cons, last_cons. cbn [snd].
        destruct (last _); [done|]. repeat case_decide; congruence.
      * destruct (last _); [done|]. repeat case_decide; congruence.
Qed.

Lemma htmlLinks_get (minimatch : string → string → bool)
    (cheerio : string → string → string → list string)
    (files : obj string) (o : options) (doc : string) :
  obj_get (htmlLinks minimatch cheerio files o) doc
  = if decide (doc = "__proto__") then None
    else fileLinks cheerio o <$> last (filesNamed minimatch o files doc).
Proof.
  unfold htmlLinks, filesNamed. rewrite htmlLinks_fold, list_filter_filter.
  case_decide; [done|]. by destruct (last _).
Qed.

(** X1: the entry of a document in the link mapping holds the links of the
    last file, in enumeration order, that matches the pattern and has that
    normalized name: of two files whose names differ only in their
    separators the later one overwrites the earlier one, and the name
    [__proto__] gets no entry. *)
Theorem htmlLinks_lookup (minimatch : string → string → bool)
    (cheerio : string → string → string → list string)
    (files : obj string) (o : options) (doc : string) :
  obj_get (htmlLinks minimatch cheerio files o) doc
  = if decide (doc = "__proto__") then None
    else fileLinks cheerio o <$> last (filesNamed minimatch o files doc).
Proof. apply htmlLinks_get. Qed.

(** X2: the keys of the link mapping are pairwise distinct, and they are
    exactly the normalized names, other than [__proto__], of the files that
    match the pattern. *)
Theorem htmlLinks_keys (minimatch : string → string → bool)
    (cheerio : string → string → string → list string)
    (files : obj string) (o : options) :
  NoDup (obj_keys (htmlLinks minimatch cheerio files o)) ∧
  ∀ doc,
    doc ∈ obj_keys (htmlLinks minimatch cheerio files o)
    ↔ doc ≠ "__proto__" ∧
      ∃ filename contents,
        (filename, contents) ∈ files ∧
        minimatch (html_pattern o) filename = true ∧
        normalizeSeparators filename = doc.
Proof.
  split; [apply htmlLinks_wellFormed|].
  intros doc. rewrite <- obj_get_is_Some, htmlLinks_get. unfold filesNamed.
  set (named := filter _ files).
  assert (Hnamed : ∀ kv, kv ∈ named
            ↔ (normalizeSeparators kv.1 = doc
               ∧ minimatch (html_pattern o) kv.1 = true) ∧ kv ∈ files).
  { intros kv. unfold named. by rewrite list_elem_of_filter. }
  case_decide as Hdoc.
  - split; [by intros [? ?] | by intros [? _]].
  - rewrite fmap_is_Some, last_is_Some. split.
    + intros Hne. split; [done|].
      destruct named as [|[filename contents] rest] eqn:Hn; [done|].
      destruct (Hnamed (filename, contents)) as [[[? ?] ?] _]; [left|].
      by exists filename, contents.
    + intros (_ & filename & contents & Hin & Hmatch & Hname) Hnil.
      apply fmap_nil_inv in Hnil.
      assert (Hf : (filename, contents) ∈ named) by by apply Hnamed.
      rewrite Hnil in Hf. by apply elem_of_nil in Hf.
Qed.

(** ** The file names *)

Lemma normalizedFilenames_fold (k : string) (l : obj string) :
  ∀ reducer : gmap string bool,
    is_Some
      (fold_left
         (λ (reducer : gmap string bool) '(filename, _),
            let name := normalizeSeparators filename in
            if String.eqb name "__proto__" then reducer
            else <[name := true]> reducer)
         l reducer !! k)
    ↔ is_Some (reducer !! k)
      ∨ k ≠ "__proto__"
        ∧ ∃ filename contents,
            (filename, contents) ∈ l ∧ normalizeSeparators filename = k.
Proof.
  induction l as [|[filename contents] l IH]; intros reducer.
  - cbn. split; [auto|]. intros [|(_ & ? & ? & H & _)]; [done|].
    by apply elem_of_nil in H.
  - cbn [fold_left]. rewrite IH. cbn zeta.
    destruct (String.eqb_spec (normalizeSeparators filename) "__proto__")
      as [Hproto|Hproto].
    + split.
      * intros [|(Hk & f & c & Hin & Hname)]; [by left|].
        right. split; [done|]. exists f, c. split; [by right | done].
      * intros [|(Hk & f & c & [[= -> ->]|Hin]%elem_of_cons & Hname)];
          [by left | congruence |].
        right. split; [done|]. eauto.
    + rewrite lookup_insert_is_Some. split.
      * intros [[Hname|[_ Hsome]]|(Hk & f & c & Hin & Hname)].
        -- right. split; [congruence|].
           exists filename, contents. split; [left | done].
        -- by left.
        -- right. split; [done|]. exists f, c. split; [by right | done].
      * intros [Hsome|(Hk & f & c & [[= -> ->]|Hin]%elem_of_cons & Hname)].
        -- left. destruct (decide (normalizeSeparators filename = k)); auto.
        -- left. by left.
        -- right. split; [done|]. eauto.
Qed.

(** X4: a name is found in the dictionary of file names exactly when it names
    an inherited property or is the normalized name of some file of the
    build, whether or not that file matches the pattern. *)
Theorem normalizedFilenames_spec (files : obj string) (k : string) :
  js_in k (normalizedFilenames files) = true
  ↔ inherited k = true
    ∨ ∃ filename contents,
        (filename, contents) ∈ files ∧ normalizeSeparators filename = k.
Proof.
  unfold js_in, normalizedFilenames.
  rewrite orb_true_iff, bool_decide_eq_true, normalizedFilenames_fold.
  rewrite lookup_empty. split.
  - intros [[[? [=]]|[_ ?]]|]; auto.
  - intros [|Hfile]; [by right|].
    destruct (decide (k = "__proto__")) as [->|]; [by right|].
    left. by right.
Qed.

(** ** Ignored links *)

(** X5: processing the ignore list deletes exactly the links that some
    pattern matches; the other entries stay, in their order and with their
    documents. *)
Theorem removeIgnored_lookup (res : list (string → bool))
    (linksToFilenames : obj (list string)) :
  removeIgnored res linksToFilenames
  = filter (λ kv, ignored res kv.1 = false) linksToFilenames ∧
  ∀ link,
    obj_get (removeIgnored res linksToFilenames) link
    = if ignored res link then None else obj_get linksToFilenames link.
Proof.
  split; [apply removeIgnored_spec|].
  intros link. rewrite removeIgnored_spec.
  pose proof (obj_get_filter_key (λ k, ignored res k = false)
                linksToFilenames link) as Hf.
  cbn beta in Hf. rewrite Hf. destruct (ignored res link); by case_decide.
Qed.

(** ** Whole runs *)

(** X6: a build throws, and so never calls [done], exactly when some
    reference names a property inherited from [Object.prototype] or some
    ignore pattern is not a regular expression. *)
Theorem plugin_throws
    (request : bool → method → string → response)
    (urlScheme : string → option string)
    (RegExp : string → option (string → bool))
    (minimatch : string → string → bool)
    (cheerio : string → string → string → list string)
    (o : options) (files : obj string) :
  plugin request urlScheme RegExp minimatch cheerio o files = None
  ↔ ownValues (htmlLinks minimatch cheerio files o) = false
    ∨ ∃ pattern, pattern ∈ ignore o ∧ RegExp pattern = None.
Proof.
  unfold plugin.
  destruct (ownValues (htmlLinks minimatch cheerio files o)) eqn:Hown.
  - destruct (flipObjectOfArrays_lookup _ Hown) as (l2f & -> & _).
    cbn [mbind option_bind].
    destruct (mapM RegExp (ignore o)) as [res|] eqn:Hres; cbn [mbind option_bind].
    + split; [done|]. intros [|(pattern & Hin & Hnone)]; [done|].
      assert (Hex : Exists (λ x, RegExp x = None) (ignore o))
        by (apply Exists_exists; eauto).
      apply mapM_None in Hex. congruence.
    + split; [|done]. intros _. right.
      apply mapM_None, Exists_exists in Hres. exact Hres.
  - assert (flipObjectOfArrays (htmlLinks minimatch cheerio files o) = None) as ->.
    { apply flipEntries_throws; [by intros k _ | done]. }
    split; [by left | done].
Qed.

Lemma flipEntries_no_values (input : obj (list string)) :
  ∀ output, (∀ key vals, (key, vals) ∈ input → vals = []) →
            flipEntries output input = Some output.
Proof.
  induction input as [|[key vals] input IH]; intros output Hempty; [done|].
  cbn [flipEntries]. rewrite (Hempty key vals) by left. cbn [flipValues].
  apply IH. intros k vs Hin. apply (Hempty k vs). by right.
Qed.

Lemma filenamesToLinkErrors_no_links (result : obj outcome)
    (filenamesToLinks : obj (list string)) :
  (∀ doc links, (doc, links) ∈ filenamesToLinks → links = []) →
  filenamesToLinkErrors filenamesToLinks result = [].
Proof.
  unfold filenamesToLinkErrors. intros Hempty.
  assert (Hfold : ∀ acc : obj (list string),
            fold_left
              (λ acc '(filename, links),
                 let errors := linkErrors result links in
                 if Nat.eqb (length errors) 0 then acc
                 else js_assign acc filename errors)
              filenamesToLinks acc = acc); [|apply Hfold].
  induction filenamesToLinks as [|[doc links] l IH]; intros acc; [done|].
  cbn [fold_left]. rewrite (Hempty doc links) by left. cbn.
  apply IH. intros d ls Hin. apply (Hempty d ls). by right.
Qed.

(** X7: when no scanned document contains a reference (in particular when
    no file matches the pattern) and the ignore patterns compile, the build
    makes no validator call and ends with the single call [done()]. *)
Theorem plugin_without_references
    (request : bool → method → string → response)
    (urlScheme : string → option string)
    (RegExp : string → option (string → bool))
    (minimatch : string → string → bool)
    (cheerio : string → string → string → list string)
    (o : options) (files : obj string) (res : list (string → bool)) :
  (∀ doc links,
     (doc, links) ∈ htmlLinks minimatch cheerio files o → links = []) →
  mapM RegExp (ignore o) = Some res →
  plugin request urlScheme RegExp minimatch cheerio o files = Some ([None], []).
Proof.
  intros Hempty Hres. unfold plugin, flipObjectOfArrays.
  rewrite flipEntries_no_values by done. cbn [mbind option_bind].
  rewrite Hres. cbn [mbind option_bind]. rewrite removeIgnored_spec.
  cbn [filter list_filter mapValues]. run_traced. unfold complete.
  by rewrite filenamesToLinkErrors_no_links.
Qed.

Lemma plugin_without_references_witness :
  let files := [ ("index.html", ""); ("about/index.html", "  ") ] in
  (∀ doc links,
     (doc, links) ∈ htmlLinks Demo.minimatch Demo.cheerio files defaultOptions →
     links = []) ∧
  mapM Demo.RegExp (ignore defaultOptions) = Some [] ∧
  Demo.run defaultOptions files = Some ([None], []).
Proof.
  intros files.
  assert (Hempty : ∀ doc links,
            (doc, links) ∈ htmlLinks Demo.minimatch Demo.cheerio files defaultOptions →
            links = []).
  { intros doc links Hin. vm_compute in Hin.
    repeat (apply elem_of_cons in Hin as [[= _ <-]|Hin]; [reflexivity|]).
    by apply elem_of_nil in Hin. }
  split; [exact Hempty|]. split; [reflexivity|].
  exact (plugin_without_references Demo.request Demo.urlScheme Demo.RegExp
           Demo.minimatch Demo.cheerio defaultOptions files [] Hempty eq_refl).
Defined.

(** X8: the completion callback calls [done()] alone exactly when no
    document cites a reference whose stored outcome is a non-empty reason;
    otherwise it calls [done] with the report and then [done()]. In both cases
    the last call is [done()]. *)
Theorem complete_calls
    (minimatch : string → string → bool)
    (cheerio : string → string → string → list string)
    (o : options) (files : obj string) (result : obj outcome) :
  let filenamesToLinks := htmlLinks minimatch cheerio files o in
  (complete filenamesToLinks result = [None]
   ↔ ∀ doc links link,
       (doc, links) ∈ filenamesToLinks → link ∈ links →
       truthy (obj_get result link) = false) ∧
  (complete filenamesToLinks result = [None]
   ∨ complete filenamesToLinks result
     = [Some (report (filenamesToLinkErrors filenamesToLinks result)); None]).
Proof.
  intros f2l.
  pose proof (htmlLinks_wellFormed minimatch cheerio files o) as Hwf.
  fold f2l in Hwf.
  pose proof (filenamesToLinkErrors_keys f2l result) as Hkeys.
  rewrite complete_spec.
  destruct (filenamesToLinkErrors f2l result) as [|[doc0 errs] rest] eqn:Herr.
  - split; [|by left]. split; [|done]. intros _ doc links link Hdoc Hlink.
    destruct (truthy (obj_get result link)) eqn:Ht; [|done].
    assert (Hin : doc ∈ obj_keys (@nil (string * list string))).
    { apply Hkeys; eauto. }
    by apply elem_of_nil in Hin.
  - split; [|by right]. split; [done|]. intros Hnone.
    assert (Hin : doc0 ∈ obj_keys ((doc0, errs) :: rest)) by left.
    apply Hkeys in Hin as (links & Hdoc & link & Hlink & Ht); [|done].
    rewrite (Hnone doc0 links link) in Ht; done.
Qed.

(** ** More on local resolution *)

Lemma noSeparator_append a b :
  noSeparator (a +:+ b) = noSeparator a && noSeparator b.
Proof.
  induction a as [|c a IH]; [done|].
  rewrite append_cons. cbn [noSeparator]. by rewrite IH, andb_assoc.
Qed.

Lemma stripAnchor_append_anchor dest f :
  noSeparator f = true → stripAnchor (dest +:+ String "#" f) = stripAnchor dest.
Proof.
  intros Hf. induction dest as [|c dest IH].
  - change ("" +:+ String "#" f) with (String "#" f). cbn [stripAnchor].
    by rewrite Hf.
  - rewrite append_cons. cbn [stripAnchor]. rewrite IH, noSeparator_append.
    cbn [noSeparator isSeparator]. rewrite Hf. cbn.
    by rewrite andb_true_r.
Qed.

(** X9: an anchor without slash or backslash never changes the verdict of
    local resolution: a reference and the same reference followed by such an
    anchor are both valid or both invalid. *)
Theorem validLocal_anchor (files : gmap string bool) (src dest f : string) :
  noSeparator f = true →
  validLocal files src (dest +:+ String "#" f) = validLocal files src dest.
Proof.
  intros Hf. unfold validLocal. by rewrite stripAnchor_append_anchor.
Qed.

Lemma validLocal_anchor_witness :
  let files : gmap string bool := {[ "docs/page.html" := true ]} in
  noSeparator "section-2" = true ∧
  validLocal files "docs/index.html" ("page.html" +:+ String "#" "section-2")
  = validLocal files "docs/index.html" "page.html".
Proof.
  intros files. split; [reflexivity|].
  apply (validLocal_anchor files "docs/index.html" "page.html" "section-2").
  reflexivity.
Defined.

(** X10: local resolution is monotone in the file set: a reference that is
    valid stays valid when files are added. *)
Theorem validLocal_more_files (files files' : gmap string bool)
    (src dest : string) :
  dom files ⊆ dom files' →
  validLocal files src dest = true →
  validLocal files' src dest = true.
Proof.
  intros Hsub. unfold validLocal.
  destruct (isSelf (stripAnchor dest)); [done|].
  destruct (isSelf (Path.join _ _)); [done|].
  assert (Hin : ∀ k, js_in k files = true → js_in k files' = true).
  { intros k. unfold js_in. rewrite !orb_true_iff, !bool_decide_eq_true.
    intros [Hk|]; [left | by right].
    apply elem_of_dom. apply Hsub. by apply elem_of_dom. }
  rewrite !orb_true_iff. intros [|]; auto.
Qed.

Lemma validLocal_more_files_witness :
  let files : gmap string bool := {[ "about/index.html" := true ]} in
  let files' : gmap string bool := <[ "index.html" := true ]> files in
  dom files ⊆ dom files' ∧
  validLocal files "index.html" "about" = true ∧
  validLocal files' "index.html" "about" = true.
Proof.
  intros files files'.
  assert (Hsub : dom files ⊆ dom files').
  { unfold files'. rewrite dom_insert. set_solver. }
  split; [exact Hsub|]. split; [reflexivity|].
  exact (validLocal_more_files files files' "index.html" "about" Hsub eq_refl).
Defined.


(** ** More on the iteratee *)

Lemma forallb_same_elements {A} (p : A → bool) (l l' : list A) :
  (∀ x, x ∈ l ↔ x ∈ l') → forallb p l = forallb p l'.
Proof.
  intros Hsame.
  destruct (forallb p l) eqn:Hl, (forallb p l') eqn:Hl'; try done.
  - rewrite forallb_forall in Hl.
    assert (forallb p l' = true); [|congruence].
    apply forallb_forall. intros x Hx. apply Hl.
    by apply list_elem_of_In, Hsame, list_elem_of_In.
  - rewrite forallb_forall in Hl'.
    assert (forallb p l = true); [|congruence].
    apply forallb_forall. intros x Hx. apply Hl'.
    by apply list_elem_of_In, Hsame, list_elem_of_In.
Qed.

(** X11: the outcome of a reference depends on the set of its citing
    documents only, not on their order nor on how often a document is
    listed; so the repeated entries that the flip step leaves do not change
    any outcome. *)
Theorem iteratee_outcome_of_set
    (request : bool → method → string → response)
    (urlScheme : string → option string) (names : gmap string bool)
    (filenames filenames' : list string) (link : string) :
  (∀ filename, filename ∈ filenames ↔ filename ∈ filenames') →
  (iteratee request urlScheme names filenames link).1
  = (iteratee request urlScheme names filenames' link).1.
Proof.
  intros Hsame. rewrite !iteratee_spec.
  destruct (urlScheme link); [done|]. cbn [fst].
  by rewrite (forallb_same_elements _ filenames filenames').
Qed.

Lemma iteratee_outcome_of_set_witness :
  let names : gmap string bool := {[ "docs/page.html" := true ]} in
  let filenames := [ "index.html"; "docs/index.html"; "index.html" ] in
  let filenames' := [ "docs/index.html"; "index.html" ] in
  (∀ filename, filename ∈ filenames ↔ filename ∈ filenames') ∧
  (iteratee Demo.request Demo.urlScheme names filenames "page.html").1
  = (iteratee Demo.request Demo.urlScheme names filenames' "page.html").1.
Proof.
  intros names filenames filenames'.
  assert (Hsame : ∀ filename, filename ∈ filenames ↔ filename ∈ filenames').
  { intros filename. unfold filenames, filenames'.
    rewrite !elem_of_cons, !elem_of_nil. tauto. }
  split; [exact Hsame|].
  exact (iteratee_outcome_of_set Demo.request Demo.urlScheme names
           filenames filenames' "page.html" Hsame).
Defined.

(** X12: the reasons that a run can store. A stored reason is ['not found']
    for a reference without a scheme, and otherwise ['HTTP <code>'] with a
    status code from 400 to 599 or the message of a failed request to that
    reference; nothing else is ever stored. *)
Theorem stored_reasons
    (request : bool → method → string → response)
    (urlScheme : string → option string) (names : gmap string bool)
    (linksToFilenames : obj (list string)) (link reason : string) :
  obj_get (mapValues request urlScheme names linksToFilenames).1 link
  = Some (Some reason) →
  (urlScheme link = None ∧ reason = "not found")
  ∨ (∃ statusCode m,
       request (isHttps link) m link = Response statusCode ∧
       (400 ≤ statusCode ≤ 599)%Z ∧
       reason = "HTTP " +:+ pretty statusCode)
  ∨ (∃ m, request (isHttps link) m link = Failure reason).
Proof.
  rewrite mapValues_spec. cbn [fst].
  rewrite (obj_get_fmap_values
             (λ kv, (iteratee request urlScheme names kv.2 kv.1).1)).
  destruct (obj_get linksToFilenames link) as [filenames|]; [|done].
  cbn [fmap option_fmap option_map fst snd]. rewrite iteratee_spec.
  destruct (urlScheme link) as [scheme|].
  - case_decide; [|done]. rewrite validUrl_HEAD.
    assert (Hanswer : ∀ m, answer (request (isHttps link) m link) = Some reason →
              (∃ statusCode m,
                 request (isHttps link) m link = Response statusCode ∧
                 (400 ≤ statusCode ≤ 599)%Z ∧
                 reason = "HTTP " +:+ pretty statusCode)
              ∨ (∃ m, request (isHttps link) m link = Failure reason)).
    { intros m Ha.
      destruct (request (isHttps link) m link) as [statusCode|message] eqn:Hr;
        cbn [answer] in Ha.
      - rewrite classify_spec in Ha. case_decide; [|done].
        injection Ha as <-. left. eauto.
      - injection Ha as ->. right. eauto. }
    case_decide; cbn [fst]; intros [= Ha]; right; exact (Hanswer _ Ha).
  - cbn [fst]. destruct (forallb _ _); [done|]. intros [= <-]. by left.
Qed.

Lemma stored_reasons_witness :
  let names : gmap string bool := ∅ in
  let linksToFilenames := [ ("http://e.org/", ["index.html"]) ] in
  obj_get (mapValues Demo.request Demo.urlScheme names linksToFilenames).1
          "http://e.org/"
  = Some (Some "HTTP 404") ∧
  ((Demo.urlScheme "http://e.org/" = None ∧ "HTTP 404" = "not found")
   ∨ (∃ statusCode m,
        Demo.request (isHttps "http://e.org/") m "http://e.org/"
        = Response statusCode ∧
        (400 ≤ statusCode ≤ 599)%Z ∧
        "HTTP 404" = "HTTP " +:+ pretty statusCode)
   ∨ (∃ m, Demo.request (isHttps "http://e.org/") m "http://e.org/"
           = Failure "HTTP 404")).
Proof.
  intros names linksToFilenames. split; [reflexivity|].
  apply (stored_reasons Demo.request Demo.urlScheme names linksToFilenames).
  reflexivity.
Defined.

(** ** The lines of the error mapping *)

Lemma truthy_reason (o : option outcome) :
  truthy o = true ↔ ∃ reason, o = Some (Some reason) ∧ reason ≠ "".
Proof.
  destruct o as [[reason|]|]; cbn.
  - rewrite negb_true_iff. destruct (String.eqb_spec reason ""); split.
    + done.
    + intros (? & [= <-] & ?). done.
    + eauto.
    + done.
  - split; [done | by intros (? & ? & _)].
  - split; [done | by intros (? & ? & _)].
Qed.

Lemma elem_of_linkErrors (result : obj outcome) links line :
  line ∈ linkErrors result links
  ↔ ∃ link reason,
      link ∈ links ∧ obj_get result link = Some (Some reason) ∧ reason ≠ "" ∧
      line = link +:+ " (" +:+ reason +:+ ")".
Proof.
  unfold linkErrors. rewrite list_elem_of_fmap. split.
  - intros (link & -> & [Ht Hin]%list_elem_of_filter).
    apply truthy_reason in Ht as (reason & Hget & Hne).
    exists link, reason. by rewrite Hget.
  - intros (link & reason & Hin & Hget & Hne & ->).
    exists link. rewrite Hget. split; [done|].
    apply list_elem_of_filter. split; [|done].
    apply truthy_reason. eauto.
Qed.

(** X13: in a run that does not throw, the lines listed for a document are
    exactly the references it cites whose stored outcome is a non-empty
    reason, each formatted with that reason; such a reference is never an
    ignored one, so an ignored reference appears in no report. *)
Theorem report_lines
    (request : bool → method → string → response)
    (urlScheme : string → option string)
    (RegExp : string → option (string → bool))
    (minimatch : string → string → bool)
    (cheerio : string → string → string → list string)
    (o : options) (files : obj string) (res : list (string → bool)) :
  let filenamesToLinks := htmlLinks minimatch cheerio files o in
  let names := normalizedFilenames files in
  ownValues filenamesToLinks = true →
  mapM RegExp (ignore o) = Some res →
  ∃ linksToFilenames result t,
    flipObjectOfArrays filenamesToLinks = Some linksToFilenames ∧
    mapValues request urlScheme names (removeIgnored res linksToFilenames)
    = (result, t) ∧
    plugin request urlScheme RegExp minimatch cheerio o files
    = Some (complete filenamesToLinks result, t) ∧
    (∀ link reason, obj_get result link = Some reason → ignored res link = false) ∧
    ∀ doc links line,
      (doc, links) ∈ filenamesToLinks →
      (line ∈ default [] (obj_get (filenamesToLinkErrors filenamesToLinks result) doc)
       ↔ ∃ link reason,
           link ∈ links ∧ obj_get result link = Some (Some reason) ∧
           reason ≠ "" ∧ line = link +:+ " (" +:+ reason +:+ ")").
Proof.
  intros f2l names Hown Hres.
  destruct (flipObjectOfArrays_lookup _ Hown) as (l2f & Hflip & Hnd & Hget).
  destruct (mapValues request urlScheme names (removeIgnored res l2f))
    as [result t] eqn:Hmap.
  exists l2f, result, t. split_and!; [done | done | | |].
  - unfold plugin. fold f2l names. rewrite Hflip, Hres. cbn [mbind option_bind].
    rewrite Hmap. run_traced. by rewrite app_nil_r.
  - intros link reason. rewrite removeIgnored_spec, mapValues_spec in Hmap.
    injection Hmap as <- _.
    rewrite (obj_get_fmap_values
               (λ kv, (iteratee request urlScheme names kv.2 kv.1).1)).
    pose proof (obj_get_filter_key (λ k, ignored res k = false) l2f link) as Hf.
    cbn beta in Hf. rewrite Hf. by case_decide.
  - intros doc links line Hdoc.
    rewrite (filenamesToLinkErrors_lookup _ _ doc links);
      [| apply htmlLinks_wellFormed | done].
    rewrite <- elem_of_linkErrors. case_decide as Hnil; [|done].
    rewrite Hnil. done.
Qed.

Lemma report_lines_witness :
  let files := [ ("index.html", "page.html skip.html") ] in
  let o := {| html_pattern := "**/*.html";
              html_tags := [ ("a", OneAttribute "href") ];
              ignore := ["skip.html"] |} in
  let filenamesToLinks := htmlLinks Demo.minimatch Demo.cheerio files o in
  let names := normalizedFilenames files in
  let res := [String.eqb "skip.html"] in
  ownValues filenamesToLinks = true ∧
  mapM Demo.RegExp (ignore o) = Some res ∧
  ∃ linksToFilenames result t,
    flipObjectOfArrays filenamesToLinks = Some linksToFilenames ∧
    mapValues Demo.request Demo.urlScheme names
              (removeIgnored res linksToFilenames)
    = (result, t) ∧
    Demo.run o files = Some (complete filenamesToLinks result, t) ∧
    (∀ link reason, obj_get result link = Some reason → ignored res link = false) ∧
    ∀ doc links line,
      (doc, links) ∈ filenamesToLinks →
      (line ∈ default [] (obj_get (filenamesToLinkErrors filenamesToLinks result) doc)
       ↔ ∃ link reason,
           link ∈ links ∧ obj_get result link = Some (Some reason) ∧
           reason ≠ "" ∧ line = link +:+ " (" +:+ reason +:+ ")").
Proof.
  intros files o filenamesToLinks names res.
  split; [reflexivity|]. split; [reflexivity|].
  apply (report_lines Demo.request Demo.urlScheme Demo.RegExp Demo.minimatch
           Demo.cheerio o files res); reflexivity.
Defined.

(** ** Flipping twice *)

(** X14: flipping a mapping and flipping the result gives back, for every
    key, the same set of values: a value is listed under a key of the twice
    flipped mapping exactly when it is listed under that key of the
    mapping. *)
Theorem flipObjectOfArrays_twice (input output output' : obj (list string)) :
  NoDup (obj_keys input) →
  flipObjectOfArrays input = Some output →
  flipObjectOfArrays output = Some output' →
  ∀ key val,
    (∃ vals, obj_get output' key = Some vals ∧ val ∈ vals)
    ↔ (∃ vals, obj_get input key = Some vals ∧ val ∈ vals).
Proof.
  intros Hnd Hflip Hflip' key val.
  assert (Hown : ∀ m m' : obj (list string),
            flipObjectOfArrays m = Some m' → ownValues m = true).
  { intros m m' Hm. destruct (ownValues m) eqn:Hv; [done|].
    unfold flipObjectOfArrays in Hm.
    rewrite flipEntries_throws in Hm; [done | by intros k _ | done]. }
  destruct (flipObjectOfArrays_lookup input (Hown _ _ Hflip))
    as (out & Hout & Hndo & Hget).
  assert (out = output) as -> by congruence.
  destruct (flipObjectOfArrays_lookup output (Hown _ _ Hflip'))
    as (out' & Hout' & _ & Hget').
  assert (out' = output') as -> by congruence.
  assert (Hleft : (∃ vals, obj_get output' key = Some vals ∧ val ∈ vals)
                  ↔ val ∈ citations output key).
  { rewrite Hget'. destruct (citations output key) as [|c cs].
    - split; [by intros (? & ? & _) | by intros ?%elem_of_nil].
    - split; [by intros (? & [= <-] & ?) | eauto]. }
  assert (Hmid : key ∈ citations input val
                 ↔ ∃ vals, obj_get input key = Some vals ∧ val ∈ vals).
  { rewrite elem_of_citations. split.
    - intros (vals & Hin & Hval). exists vals. split; [|done].
      by apply obj_get_NoDup.
    - intros (vals & Hin & Hval). exists vals. split; [|done].
      by apply obj_get_elem_of. }
  rewrite Hleft, <- Hmid, elem_of_citations. split.
  - intros (keys & Hin & Hkey).
    apply (obj_get_NoDup _ _ _ Hndo) in Hin. rewrite Hget in Hin.
    destruct (citations input val); [done|]. by injection Hin as <-.
  - intros Hkey. exists (citations input val). split; [|done].
    apply obj_get_elem_of. rewrite Hget.
    destruct (citations input val); [by apply elem_of_nil in Hkey | done].
Qed.

Lemma flipObjectOfArrays_twice_witness :
  let input := [ ("a.html", ["x"; "y"; "x"]); ("b.html", ["y"]) ] in
  let output := [ ("x", ["a.html"; "a.html"]); ("y", ["a.html"; "b.html"]) ] in
  let output' := [ ("a.html", ["x"; "x"; "y"]); ("b.html", ["y"]) ] in
  NoDup (obj_keys input) ∧
  flipObjectOfArrays input = Some output ∧
  flipObjectOfArrays output = Some output' ∧
  ∀ key val,
    (∃ vals, obj_get output' key = Some vals ∧ val ∈ vals)
    ↔ (∃ vals, obj_get input key = Some vals ∧ val ∈ vals).
Proof.
  intros input output output'.
  assert (Hnd : NoDup (obj_keys input)) by compute_done.
  split; [exact Hnd|]. split; [reflexivity|]. split; [reflexivity|].
  exact (flipObjectOfArrays_twice input output output' Hnd eq_refl eq_refl).
Defined.

(** ** The earlier form of the plugin *)

Section SyncRequestFacts.
Variable request : method → string → response.
Variable urlScheme : string → option string.

Lemma sync_validUrl_GET link :
  SyncRequest.validUrl request link GET
  = (accepts (request GET link), [(GET, link)]).
Proof.
  simp validUrl. by destruct (request GET link).
Qed.

Lemma sync_protocolValidators_spec scheme :
  js_get (SyncRequest.protocolValidators request) (scheme +:+ ":")
  = if decide (scheme = "http" ∨ scheme = "https")
    then Own (λ link, SyncRequest.validUrl request link HEAD)
    else Undefined.
Proof.
  unfold js_get, SyncRequest.protocolValidators. cbn [obj_get].
  rewrite inherited_protocol.
  destruct (String.eqb_spec "http:" (scheme +:+ ":")) as [H1|H1].
  { apply (append_colon_inj "http") in H1 as <-.
    rewrite decide_True; [done | by left]. }
  destruct (String.eqb_spec "https:" (scheme +:+ ":")) as [H2|H2].
  { apply (append_colon_inj "https") in H2 as <-.
    rewrite decide_True; [done | by right]. }
  rewrite decide_False; [done|]. intros [->| ->]; done.
Qed.

Lemma sync_iteratee_bad files filenames link doc :
  doc ∈ (SyncRequest.iteratee request urlScheme files filenames link).1
  ↔ doc ∈ filenames ∧ SyncRequest.brokenFor request urlScheme files doc link.
Proof.
  unfold SyncRequest.iteratee, SyncRequest.brokenFor.
  destruct (urlScheme link) as [scheme|].
  - rewrite sync_protocolValidators_spec. case_decide as Hs.
    + destruct (SyncRequest.validUrl request link HEAD) as [[] requests];
        cbn [fst]; [|by intuition].
      rewrite elem_of_nil. by intuition.
    + cbn [fst]. rewrite elem_of_nil. by intuition.
  - cbn [fst]. rewrite list_elem_of_filter. tauto.
Qed.

Lemma sync_mapValues_spec files (linksToFilenames : obj (list string)) :
  (SyncRequest.mapValues request urlScheme files linksToFilenames).1
  = (λ kv, (kv.1, (SyncRequest.iteratee request urlScheme files kv.2 kv.1).1))
      <$> linksToFilenames.
Proof.
  induction linksToFilenames as [|[link filenames] rest IH]; [done|].
  cbn [SyncRequest.mapValues]. rewrite fmap_cons. cbn [fst snd].
  destruct (SyncRequest.iteratee request urlScheme files filenames link).
  destruct (SyncRequest.mapValues request urlScheme files rest).
  cbn [fst] in *. by rewrite IH.
Qed.

End SyncRequestFacts.

(** X16: the earlier, synchronous [validUrl] issues a [HEAD] request and
    follows it with one [GET] request to the same link exactly when the
    [HEAD] request throws or is answered with status 405; the link is valid
    exactly when the last request made is answered with a status outside
    400..599, so a link whose [HEAD] request throws is still valid when its
    [GET] request succeeds. *)
Theorem sync_validUrl_retry (request : method → string → response)
    (link : string) :
  SyncRequest.validUrl request link HEAD
  = if retried (request HEAD link)
    then (accepts (request GET link), [(HEAD, link); (GET, link)])
    else (accepts (request HEAD link), [(HEAD, link)]).
Proof.
  simp validUrl. destruct (request HEAD link) as [statusCode|message]; cbn.
  - destruct (statusCode =? 405)%Z; [|done]. by rewrite sync_validUrl_GET.
  - by rewrite sync_validUrl_GET.
Qed.

(** X17: in the earlier form of the plugin the completion callback lists a
    reference under a document exactly when the document cites it and the
    reference is broken for that document: a remote reference whose verdict
    is invalid, or a local reference that does not resolve from that very
    document. A local reference that fails from one document is not listed
    under the documents from which it resolves. *)
Theorem sync_errors_per_document
    (request : method → string → response)
    (urlScheme : string → option string)
    (minimatch : string → string → bool)
    (cheerio : string → string → string → list string)
    (o : options) (files : obj string) :
  let filenamesToLinks := htmlLinks minimatch cheerio files o in
  ownValues filenamesToLinks = true →
  (∀ doc, doc ∈ obj_keys filenamesToLinks → inherited doc = false) →
  ∃ linksToFilenames errors,
    flipObjectOfArrays filenamesToLinks = Some linksToFilenames ∧
    flipObjectOfArrays
      (SyncRequest.mapValues request urlScheme (obj_keys files)
                             linksToFilenames).1
    = Some errors ∧
    SyncRequest.complete
      (SyncRequest.mapValues request urlScheme (obj_keys files)
                             linksToFilenames).1
    = Some ((if Nat.eqb (length (obj_keys errors)) 0 then []
             else [Some (report errors)]) ++ [None]) ∧
    ∀ doc link,
      (∃ links, obj_get errors doc = Some links ∧ link ∈ links)
      ↔ (∃ links, (doc, links) ∈ filenamesToLinks ∧ link ∈ links) ∧
        SyncRequest.brokenFor request urlScheme (obj_keys files) doc link.
Proof.
  intros f2l Hown Hdocs.
  destruct (flipObjectOfArrays_lookup _ Hown) as (l2f & Hflip & Hnd & Hget).
  set (result := (SyncRequest.mapValues request urlScheme (obj_keys files) l2f).1).
  assert (Hresult : ∀ link bad,
            (link, bad) ∈ result
            ↔ ∃ filenames,
                (link, filenames) ∈ l2f ∧
                bad = (SyncRequest.iteratee request urlScheme (obj_keys files)
                                            filenames link).1).
  { intros link bad. unfold result. rewrite sync_mapValues_spec.
    rewrite list_elem_of_fmap. split.
    - intros ([k fs] & [= -> ->] & Hin). eauto.
    - intros (fs & Hin & ->). by exists (link, fs). }
  assert (Hcited : ∀ link filenames doc,
            (link, filenames) ∈ l2f → doc ∈ filenames →
            ∃ links, (doc, links) ∈ f2l ∧ link ∈ links).
  { intros link filenames doc Hin Hdoc.
    apply (obj_get_NoDup _ _ _ Hnd) in Hin. rewrite Hget in Hin.
    apply elem_of_citations.
    destruct (citations f2l link); [done|]. by injection Hin as <-. }
  assert (Hown' : ownValues result = true).
  { unfold ownValues. apply forallb_forall. intros [link bad] Hin.
    apply list_elem_of_In, Hresult in Hin as (fs & Hin & ->).
    apply forallb_forall. intros doc Hdoc. apply negb_true_iff, Hdocs.
    apply list_elem_of_In, sync_iteratee_bad in Hdoc as [Hdoc _].
    destruct (Hcited _ _ _ Hin Hdoc) as (links & Hl & _).
    apply list_elem_of_fmap. by exists (doc, links). }
  destruct (flipObjectOfArrays_lookup _ Hown') as (errors & Hflip' & _ & Hget').
  exists l2f, errors. split_and!; [done | done | |].
  { unfold SyncRequest.complete. fold result. by rewrite Hflip'. }
  intros doc link. rewrite Hget'.
  assert (Hlisted : (∃ links, match citations result doc with
                               | [] => None
                               | cited => Some cited
                               end = Some links ∧ link ∈ links)
                    ↔ link ∈ citations result doc).
  { destruct (citations result doc) as [|c cs].
    - split; [by intros (? & ? & _) | by intros ?%elem_of_nil].
    - split; [by intros (? & [= <-] & ?) | eauto]. }
  rewrite Hlisted, elem_of_citations. split.
  - intros (bad & (fs & Hin & ->)%Hresult & [Hdoc Hbroken]%sync_iteratee_bad).
    split; [|done]. eauto.
  - intros [(links & Hin & Hlink) Hbroken].
    assert (Hdoc : doc ∈ citations f2l link) by (apply elem_of_citations; eauto).
    exists (SyncRequest.iteratee request urlScheme (obj_keys files)
              (citations f2l link) link).1.
    split.
    + apply Hresult. exists (citations f2l link). split; [|done].
      apply obj_get_elem_of. rewrite Hget.
      destruct (citations f2l link); [by apply elem_of_nil in Hdoc | done].
    + by apply sync_iteratee_bad.
Qed.

Lemma sync_errors_per_document_witness :
  let files := [ ("index.html", "page.html"); ("docs/index.html", "page.html");
                 ("docs/page.html", "") ] in
  let filenamesToLinks := htmlLinks Demo.minimatch Demo.cheerio files defaultOptions in
  ownValues filenamesToLinks = true ∧
  (∀ doc, doc ∈ obj_keys filenamesToLinks → inherited doc = false) ∧
  ∃ linksToFilenames errors,
    flipObjectOfArrays filenamesToLinks = Some linksToFilenames ∧
    flipObjectOfArrays
      (SyncRequest.mapValues (Demo.request false) Demo.urlScheme
                             (obj_keys files) linksToFilenames).1
    = Some errors ∧
    SyncRequest.complete
      (SyncRequest.mapValues (Demo.request false) Demo.urlScheme
                             (obj_keys files) linksToFilenames).1
    = Some ((if Nat.eqb (length (obj_keys errors)) 0 then []
             else [Some (report errors)]) ++ [None]) ∧
    ∀ doc link,
      (∃ links, obj_get errors doc = Some links ∧ link ∈ links)
      ↔ (∃ links, (doc, links) ∈ filenamesToLinks ∧ link ∈ links) ∧
        SyncRequest.brokenFor (Demo.request false) Demo.urlScheme
                              (obj_keys files) doc link.
Proof.
  intros files filenamesToLinks.
  assert (Hdocs : ∀ doc, doc ∈ obj_keys filenamesToLinks → inherited doc = false).
  { intros doc Hin. vm_compute in Hin.
    repeat (apply elem_of_cons in Hin as [->|Hin]; [reflexivity|]).
    by apply elem_of_nil in Hin. }
  split; [reflexivity|]. split; [exact Hdocs|].
  exact (sync_errors_per_document (Demo.request false) Demo.urlScheme
           Demo.minimatch Demo.cheerio defaultOptions files eq_refl Hdocs).
Defined.
